(** * futaba: the journal router and the SQL hook registry

    A shallow embedding of [futaba/journal/router.py] and
    [futaba/sql/hooks.py], with the properties of the journal design
    document stated and proved (or refuted) over it.

    Layout:
    - [PurePath]  : the part of [pathlib.PurePath] the router relies on;
    - [Hooks]     : [HOOK_NAMES], [register_hook], [run_hooks];
    - [Router]    : [attrs_match], [Router.get], [Router.register],
                    [Router.unregister] and the dispatch loop
                    [Router.handle_events] as a scheduler-driven step
                    function over the cooperative tasks of the event loop;
    - [Demo]      : a concrete instance used for executable examples. *)

From stdpp Require Import base option list strings gmap.

Local Open Scope string_scope.
Local Open Scope list_scope.

(** ** Paths *)

Module PurePath.

(** A [PurePath] as the posix flavour stores it: the anchor (drive and
    root, empty for a relative path, ["/"] for an absolute one) and the
    names that follow it.  Two paths are equal when both agree. *)
Record t := mk { anchor : string; names : list string }.

#[global] Instance t_eq_dec : EqDecision t.
Proof. solve_decision. Defined.

Definition to_pair (p : t) : string * list string := (anchor p, names p).
Definition of_pair (x : string * list string) : t := mk x.1 x.2.

#[global] Instance t_countable : Countable t.
Proof.
  apply (inj_countable' to_pair of_pair). by intros [??].
Defined.

(** [PurePath.parents]: a sequence of length [len(names)] whose item
    [idx] drops the last [idx + 1] names and keeps the anchor
    ([_PathParents.__getitem__] slices the parts with [[:-idx - 1]]). *)
Definition parents (p : t) : list t :=
  (fun idx => mk (anchor p) (take (length (names p) - idx - 1) (names p)))
    <$> seq 0 (length (names p)).

(** [a] is an ancestor of [p]: same anchor, names a strict prefix. *)
Definition ancestor (a p : t) : Prop :=
  anchor a = anchor p /\
  exists rest, rest <> [] /\ names p = names a ++ rest.

Definition depth (p : t) : nat := length (names p).

End PurePath.

Abbreviation Path := PurePath.t.

(** ** [futaba/sql/hooks.py] *)

Module Hooks.

Definition HOOK_NAMES : list string := ["on_guild_join"; "on_guild_leave"].

Inductive error :=
| ValueError (name : string)   (* "No such hook type: {name}" *)
| KeyError (name : string).    (* [_hooks[name]] on a missing key *)

(** What a call [hook( *args, **kwargs)] does: it acts on the world the
    hooks share (the database session) and either returns or raises an
    [Exception]; the value returned is discarded by the caller.  A hook
    is taken not to register hooks while the hooks run. *)
Inductive outcome (Exn : Type) := Returned | Raised (e : Exn).
Arguments Returned {Exn}.
Arguments Raised {Exn} e.

Class Callable (Hook Args World Exn : Type) :=
  call : Hook -> Args -> World -> World * outcome Exn.

Section hooks.
Context {Hook Args World Exn : Type} `{!Callable Hook Args World Exn}.

(** [_hooks = {name: [] for name in HOOK_NAMES}] *)
Definition _hooks : gmap string (list Hook) :=
  list_to_map ((fun name => (name, [])) <$> HOOK_NAMES).

(** [register_hook(name, hook)]: the error raised, if any, and the
    registry afterwards. *)
Definition register_hook (name : string) (hook : Hook)
    (hooks : gmap string (list Hook))
  : option error * gmap string (list Hook) :=
  if decide (name ∈ HOOK_NAMES) then
    match hooks !! name with
    | Some l => (None, <[name := l ++ [hook]]> hooks)
    | None => (Some (KeyError name), hooks)
    end
  else (Some (ValueError name), hooks).

(** The state a run of the hooks leaves behind: the world, the error
    records written to the log and the calls made, oldest first. *)
Record hook_run := HookRun {
  world : World;
  errors : list (Hook * Exn);
  called : list Hook;
}.

(** The [for hook in _hooks[name]] loop with its [try]/[except]. *)
Fixpoint run_loop (l : list Hook) (args : Args) (r : hook_run) : hook_run :=
  match l with
  | [] => r
  | hook :: l' =>
      match call hook args (world r) with
      | (w, Returned) =>
          run_loop l' args (HookRun w (errors r) (called r ++ [hook]))
      | (w, Raised e) =>
          run_loop l' args
            (HookRun w (errors r ++ [(hook, e)]) (called r ++ [hook]))
      end
  end.

(** [run_hooks(name, *args, **kwargs)] *)
Definition run_hooks (name : string) (args : Args)
    (hooks : gmap string (list Hook)) (w : World) : error + hook_run :=
  match hooks !! name with
  | Some l => inr (run_loop l args (HookRun w [] []))
  | None => inl (KeyError name)
  end.

(** A history of [register_hook] calls, failed ones included. *)
Fixpoint register_all (calls : list (string * Hook))
    (hooks : gmap string (list Hook)) : gmap string (list Hook) :=
  match calls with
  | [] => hooks
  | (name, hook) :: calls' =>
      register_all calls' (register_hook name hook hooks).2
  end.

(** The hooks a history registers under [name], in call order. *)
Definition registered_under (name : string)
    (calls : list (string * Hook)) : list Hook :=
  snd <$> filter (fun c => c.1 = name) calls.

(** What the loop of [run_hooks] is expected to leave: the error records
    of the hooks that raise, and the world after the last hook. *)
Fixpoint failures (l : list Hook) (args : Args) (w : World)
  : list (Hook * Exn) :=
  match l with
  | [] => []
  | hook :: l' =>
      match call hook args w with
      | (w', Returned) => failures l' args w'
      | (w', Raised e) => (hook, e) :: failures l' args w'
      end
  end.

Fixpoint world_after (l : list Hook) (args : Args) (w : World) : World :=
  match l with
  | [] => w
  | hook :: l' => world_after l' args (call hook args w).1
  end.

End hooks.

End Hooks.

(** ** [futaba/journal/router.py] *)

Module Router.

(** The coroutine object a call of the [async def] method
    [listener.handle(...)] returns.  Calling the method runs none of its
    body; the event loop later runs the body in segments, each ending at
    a suspension point ([Await]), at the end of the body ([Return]) or
    at an [Exception] leaving it ([Raise]). *)
Inductive coroutine (Exn : Type) :=
| Return
| Raise (e : Exn)
| Await (k : coroutine Exn).
Arguments Return {Exn}.
Arguments Raise {Exn} e.
Arguments Await {Exn} k.

(** What the router takes from its collaborators.  A [Listener] is an
    object reference, compared by identity; [getattr] is attribute
    access ([None] when [hasattr] is false); [check] is a predicate
    without effects; [process_content] is imported from
    [journal/process.py] and may raise. *)
Class Journal (Listener Guild Attrs Value Exn : Type) := {
  listener_path : Listener -> Path;
  getattr : Listener -> string -> option Value;
  check : Listener -> Path -> Guild -> string -> Attrs -> bool;
  handle : Listener -> Path -> Guild -> string -> Attrs -> coroutine Exn;
  process_content : string -> Attrs -> Exn + string;
}.

Section router.
Context {Listener Guild Attrs Value Exn : Type}.
Context `{!Journal Listener Guild Attrs Value Exn}.
Context `{!EqDecision Listener, !EqDecision Value}.

(** *** The registry: [self.paths = defaultdict(list)] *)

(** [self.paths[path]]: a missing key is inserted with an empty list. *)
Definition paths_getitem (paths : gmap Path (list Listener)) (path : Path)
  : list Listener * gmap Path (list Listener) :=
  match paths !! path with
  | Some b => (b, paths)
  | None => ([], <[path := []]> paths)
  end.

(** The listeners stored under [path], none when the key is missing. *)
Definition bucket (paths : gmap Path (list Listener)) (path : Path)
  : list Listener :=
  default [] (paths !! path).

Fixpoint attrs_match (obj : Listener) (attrs : list (string * Value))
  : bool :=
  match attrs with
  | [] => true
  | (attr, value) :: attrs' =>
      match getattr obj attr with
      | None => false
      | Some v =>
          if decide (v = value) then attrs_match obj attrs' else false
      end
  end.

(** The [for listener in self.paths[path]] loop of [get]. *)
Fixpoint first_match (ls : list Listener) (attrs : list (string * Value))
  : option Listener :=
  match ls with
  | [] => None
  | listener :: ls' =>
      if attrs_match listener attrs then Some listener
      else first_match ls' attrs
  end.

Definition get (paths : gmap Path (list Listener)) (path : Path)
    (attrs : list (string * Value))
  : option Listener * gmap Path (list Listener) :=
  let '(b, paths') := paths_getitem paths path in
  (first_match b attrs, paths').

Definition register (paths : gmap Path (list Listener))
    (listener : Listener) : gmap Path (list Listener) :=
  let '(b, paths') := paths_getitem paths (listener_path listener) in
  <[listener_path listener := b ++ [listener]]> paths'.

(** [list.remove(x)]: drop the first item equal to [x]; [None] stands
    for the [ValueError] raised when there is none. *)
Fixpoint list_remove_first (x : Listener) (l : list Listener)
  : option (list Listener) :=
  match l with
  | [] => None
  | y :: l' =>
      if decide (y = x) then Some l'
      else cons y <$> list_remove_first x l'
  end.

Inductive error := ValueError.

Definition unregister (paths : gmap Path (list Listener))
    (listener : Listener)
  : option error * gmap Path (list Listener) :=
  let '(b, paths') := paths_getitem paths (listener_path listener) in
  match list_remove_first listener b with
  | Some b' => (None, <[listener_path listener := b']> paths')
  | None => (Some ValueError, paths')
  end.

(** A history of registry calls, applied in order. *)
Inductive registry_call :=
| CallRegister (listener : Listener)
| CallUnregister (listener : Listener)
| CallGet (path : Path) (attrs : list (string * Value)).

Definition apply_call (paths : gmap Path (list Listener))
    (c : registry_call) : gmap Path (list Listener) :=
  match c with
  | CallRegister l => register paths l
  | CallUnregister l => (unregister paths l).2
  | CallGet path attrs => (get paths path attrs).2
  end.

Definition apply_calls (cs : list registry_call)
    (paths : gmap Path (list Listener)) : gmap Path (list Listener) :=
  foldl apply_call paths cs.

(** *** The dispatch loop: [Router.handle_events] *)

(** The tuple taken from [self.queue]. *)
Record event := Event {
  event_path : Path;
  guild : Guild;
  content : string;
  attributes : Attrs;
}.

(** What an execution lets an observer see, oldest first.  The
    iteration number carried by [LogError] is not part of the log
    record; it only tells which pass of the [while] loop wrote it. *)
Inductive obs :=
| QueuePut (ev : event)
| QueueGet (ev : event)
| CallProcess (content : string) (attributes : Attrs)
| CallCheck (l : Listener) (path : Path) (g : Guild) (content : string)
    (attributes : Attrs)
| CallHandle (l : Listener) (path : Path) (g : Guild) (content : string)
    (attributes : Attrs)
| TaskStep (tid : nat)
| LogError (iteration : nat) (e : Exn).

(** The [for listener in self.paths[path]] loop of lines 77-81. *)
Fixpoint scan_bucket (ls : list Listener) (path : Path) (ev_path : Path)
    (g : Guild) (content : string) (attributes : Attrs)
    (events : list (coroutine Exn)) (tr : list obs)
  : list (coroutine Exn) * list obs :=
  match ls with
  | [] => (events, tr)
  | listener :: ls' =>
      let tr1 := tr ++ [CallCheck listener path g content attributes] in
      if check listener path g content attributes then
        scan_bucket ls' path ev_path g content attributes
          (events ++ [handle listener ev_path g content attributes])
          (tr1 ++ [CallHandle listener ev_path g content attributes])
      else
        scan_bucket ls' path ev_path g content attributes events tr1
  end.

(** The [for path in chain((event_path,), event_path.parents)] loop of
    lines 76-81. *)
Fixpoint scan_paths (ps : list Path) (ev_path : Path)
    (g : Guild) (content : string) (attributes : Attrs)
    (paths : gmap Path (list Listener))
    (events : list (coroutine Exn)) (tr : list obs)
  : gmap Path (list Listener) * list (coroutine Exn) * list obs :=
  match ps with
  | [] => (paths, events, tr)
  | path :: ps' =>
      let '(b, paths1) := paths_getitem paths path in
      let '(events1, tr1) :=
        scan_bucket b path ev_path g content attributes events tr in
      scan_paths ps' ev_path g content attributes paths1 events1 tr1
  end.

(** [chain((event_path,), event_path.parents)] *)
Definition match_set (ev_path : Path) : list Path :=
  ev_path :: PurePath.parents ev_path.

(** Tasks of the event loop.  [asyncio.gather] wraps every coroutine
    it is given in a task; [t_iteration] is the pass of the [while]
    loop whose [gather] made the task. *)
Inductive status :=
| Pending (c : coroutine Exn)
| Finished
| Failed (e : Exn).

Record task := Task { t_iteration : nat; t_status : status }.

Definition pending (t : task) : bool :=
  match t_status t with Pending _ => true | _ => false end.

(** The future [asyncio.gather] returns.  Line 85 calls it with the
    default [return_exceptions=False], for which the library documents:
    the first raised exception is immediately propagated to the task
    that awaits on [gather()]; other awaitables in the sequence are not
    cancelled and continue to run.  So the future takes the exception
    of the first child that fails, at that moment, or a result once all
    children are done. *)
Inductive future :=
| Unresolved
| Result
| Exception (e : Exn).

(** Where the task running [handle_events] stands: at
    [await self.queue.get()], at [await asyncio.gather( *events)], or
    ended by an exception that left the coroutine. *)
Inductive loop_state :=
| Waiting
| Awaiting (outer : future)
| Dead (e : Exn).

Record state := State {
  paths : gmap Path (list Listener);
  queue : list event;
  events : list (coroutine Exn);
  loop : loop_state;
  iteration : nat;
  tasks : list task;
  trace : list obs;
}.

Definition start : state :=
  State ∅ [] [] Waiting 0 [] [].

(** [asyncio.gather( *events)] in pass [n]: one task per coroutine;
    with no coroutine the future is done at once. *)
Definition spawn (n : nat) (events : list (coroutine Exn)) : list task :=
  (fun c => Task n (Pending c)) <$> events.

Definition gather_future (events : list (coroutine Exn)) : future :=
  match events with [] => Result | _ => Unresolved end.

(** Lines 70-85: from the item [self.queue.get()] returns up to the
    [await] on the gathered handlers.  No suspension point lies in
    between, so the event loop runs this in one piece. *)
Definition dispatch (ev : event) (q : list event) (s : state) : state :=
  let tr := trace s ++ [QueueGet ev;
                        CallProcess (content ev) (attributes ev)] in
  match process_content (content ev) (attributes ev) with
  | inl e =>
      State (paths s) q (events s) (Dead e) (iteration s) (tasks s) tr
  | inr content' =>
      let '(paths', events', tr') :=
        scan_paths (match_set (event_path ev))
          (event_path ev) (guild ev) content' (attributes ev)
          (paths s) (events s) tr in
      State paths' q events' (Awaiting (gather_future events'))
        (iteration s) (tasks s ++ spawn (iteration s) events') tr'
  end.

(** The children of the current [gather] are all done. *)
Definition children_done (n : nat) (ts : list task) : bool :=
  forallb
    (fun t => negb (bool_decide (t_iteration t = n)) || negb (pending t))
    ts.

(** The callback [gather] attaches to each child, run when the child
    [t] is done: an unresolved future of the same pass takes the
    child's exception, or a result when no child is left running; a
    future already resolved, or of another pass, is left alone. *)
Definition done_callback (t : task) (ts : list task) (n : nat)
    (l : loop_state) : loop_state :=
  match l with
  | Awaiting Unresolved =>
      if bool_decide (t_iteration t = n) then
        match t_status t with
        | Failed e => Awaiting (Exception e)
        | _ => if children_done n ts then Awaiting Result else l
        end
      else l
  | _ => l
  end.

(** The event loop runs task [tid] up to its next suspension point,
    its return or its exception. *)
Definition run_task (tid : nat) (s : state) : option state :=
  match tasks s !! tid with
  | Some (Task n (Pending c)) =>
      let tr := trace s ++ [TaskStep tid] in
      match c with
      | Await k =>
          Some (State (paths s) (queue s) (events s) (loop s)
                  (iteration s) (<[tid := Task n (Pending k)]> (tasks s)) tr)
      | Return =>
          let ts := <[tid := Task n Finished]> (tasks s) in
          Some (State (paths s) (queue s) (events s)
                  (done_callback (Task n Finished) ts (iteration s) (loop s))
                  (iteration s) ts tr)
      | Raise e =>
          let ts := <[tid := Task n (Failed e)]> (tasks s) in
          Some (State (paths s) (queue s) (events s)
                  (done_callback (Task n (Failed e)) ts (iteration s) (loop s))
                  (iteration s) ts tr)
      end
  | _ => None
  end.

(** Lines 84-89: the [await] returns or raises, the [except] clause
    logs, [events.clear()] runs and the loop is back at line 70. *)
Definition resume (s : state) : option state :=
  match loop s with
  | Awaiting Result =>
      Some (State (paths s) (queue s) [] Waiting (S (iteration s))
              (tasks s) (trace s))
  | Awaiting (Exception e) =>
      Some (State (paths s) (queue s) [] Waiting (S (iteration s))
              (tasks s) (trace s ++ [LogError (iteration s) e]))
  | _ => None
  end.

(** Modelled from the spec: [send(path, subject, content,
    attributes)], which lives outside this file, "enqueues an Event;
    non-blocking": the item goes to the back of [self.queue]. *)
Definition send (ev : event) (s : state) : state :=
  State (paths s) (queue s ++ [ev]) (events s) (loop s) (iteration s)
    (tasks s) (trace s ++ [QueuePut ev]).

(** What the scheduler and the other tasks may do next. *)
Inductive choice :=
| DoSend (ev : event)
| DoCall (c : registry_call)
| DoDispatch
| DoRun (tid : nat)
| DoResume.

Definition step (c : choice) (s : state) : option state :=
  match c with
  | DoSend ev => Some (send ev s)
  | DoCall rc =>
      Some (State (apply_call (paths s) rc) (queue s) (events s) (loop s)
              (iteration s) (tasks s) (trace s))
  | DoDispatch =>
      match loop s, queue s with
      | Waiting, ev :: q => Some (dispatch ev q s)
      | _, _ => None
      end
  | DoRun tid => run_task tid s
  | DoResume => resume s
  end.

Fixpoint run (cs : list choice) (s : state) : option state :=
  match cs with
  | [] => Some s
  | c :: cs' =>
      match step c s with
      | Some s' => run cs' s'
      | None => None
      end
  end.

Definition reachable (s : state) : Prop :=
  exists cs, run cs start = Some s.

(** Projections of a trace. *)
Definition puts (tr : list obs) : list event :=
  omap (fun o => match o with QueuePut ev => Some ev | _ => None end) tr.

Definition gets (tr : list obs) : list event :=
  omap (fun o => match o with QueueGet ev => Some ev | _ => None end) tr.


Definition checked (tr : list obs) : list Listener :=
  omap (fun o => match o with CallCheck l _ _ _ _ => Some l | _ => None end) tr.

Definition handled (tr : list obs) : list Listener :=
  omap (fun o => match o with CallHandle l _ _ _ _ => Some l | _ => None end) tr.

Definition logged (n : nat) (tr : list obs) : Prop :=
  exists e, LogError n e ∈ tr.

(** Every key of [attrs] is an attribute of the listener, with that value. *)
Definition matches (l : Listener) (attrs : list (string * Value)) : Prop :=
  forall attr value, (attr, value) ∈ attrs -> getattr l attr = Some value.

(** Every listener is stored under its own path. *)
Definition own_paths (paths : gmap Path (list Listener)) : Prop :=
  forall path l, l ∈ bucket paths path -> listener_path l = path.

(** The calls one bucket gives rise to, and the coroutines they make. *)
Definition bucket_calls (ls : list Listener) (path ev_path : Path)
    (g : Guild) (content : string) (attributes : Attrs) : list obs :=
  ls ≫= fun l =>
    CallCheck l path g content attributes ::
    if check l path g content attributes
    then [CallHandle l ev_path g content attributes] else [].

Definition handler_calls (calls : list obs) : list (coroutine Exn) :=
  omap (fun o => match o with
                 | CallHandle l p g c a => Some (handle l p g c a)
                 | _ => None
                 end) calls.

(** How often [l.handle] is called in a stretch of the trace. *)
Definition invocations (l : Listener) (calls : list obs) : nat :=
  length (filter (fun x => x = l) (handled calls)).

Definition occurrences (l : Listener) (ls : list Listener) : nat :=
  length (filter (fun x => x = l) ls).


(** The calls the two nested loops make over the paths [ps]. *)
Definition path_calls (paths : gmap Path (list Listener)) (ps : list Path)
    (ev_path : Path) (g : Guild) (content : string) (attributes : Attrs)
  : list obs :=
  ps ≫= fun p => bucket_calls (bucket paths p) p ev_path g content attributes.

(** The calls the dispatch of [ev] makes once its content is [c]. *)
Definition event_calls (paths : gmap Path (list Listener)) (ev : event)
    (c : string) : list obs :=
  path_calls paths (match_set (event_path ev)) (event_path ev) (guild ev) c
    (attributes ev).

(** The calls of lines 76-81 in the dispatch of [ev]: none when the
    content processor raised. *)
Definition dispatched_calls (s : state) (ev : event) : list obs :=
  match process_content (content ev) (attributes ev) with
  | inl _ => []
  | inr c => event_calls (paths s) ev c
  end.

End router.

End Router.

(** ** [futaba/cogs/settings/core.py] *)

Module Settings.

(** The members of [futaba.enums.Reactions] the cog uses, and the embed
    colours. *)
Inductive reaction := SUCCESS | FAIL | DENY.
Inductive colour := dark_teal | dark_red | green.

(** The four purposes a special role serves: the keyword
    [set_special_roles] is called with. *)
Inductive purpose := member | guest | mute | jail.

(** What the cog takes from [discord], from the bot and from the SQL
    layer, none of which it defines: the guild of the invocation context
    ([None] in a direct message), names and roles, [mod_perm(ctx)],
    [bot.prefix(ctx.message)] as read from the settings store,
    [bot.config.default_prefix], the two setters of
    [bot.sql.settings], the test [role in get_special_roles(guild)],
    and [get_role_id] and [escape_backticks] of [futaba]. *)
Class Discord (Guild Ctx Store Role : Type) := {
  ctx_guild : Ctx -> option Guild;
  guild_name : Guild -> string;
  guild_roles : Guild -> list Role;
  role_id : Role -> Z;
  role_mention : Role -> string;
  role_is_default : Role -> bool;
  mod_perm : Ctx -> bool;
  bot_prefix : Store -> Ctx -> string;
  default_prefix : string;
  set_prefix : Guild -> option string -> Store -> Store;
  set_special_roles : Guild -> purpose -> option Role -> Store -> Store;
  is_special_role : Store -> Guild -> Role -> bool;
  get_role_id : string -> list Role -> option Z;
  escape_backticks : string -> string;
}.

Section settings.
Context {Guild Ctx Store Role : Type} `{!Discord Guild Ctx Store Role}.

(** A keyword argument of [journal.send]. *)
Inductive value :=
| VStr (s : string)
| VNone
| VRole (r : Role).

Definition of_prefix (p : option string) : value :=
  match p with Some s => VStr s | None => VNone end.

Definition of_role (r : option Role) : value :=
  match r with Some x => VRole x | None => VNone end.

(** What a command does to the world outside, in order: a write to the
    settings tables (inside [with self.bot.sql.transaction()]), a
    [self.journal.send(...)], and the closing
    [asyncio.gather(ctx.send(embed=embed), reaction.add(ctx.message))]. *)
Inductive effect :=
| SqlSetPrefix (g : Guild) (prefix : option string)
| SqlSetSpecialRole (g : Guild) (p : purpose) (role : option Role)
| JournalSend (path : string) (g : Guild) (content : string)
    (attributes : list (string * value))
| Reply (c : colour) (description : string) (r : reaction).

(** The characters [\n], [_] and the space, by their codes. *)
Definition newline : Ascii.ascii := Ascii.ascii_of_nat 10.
Definition underscore : Ascii.ascii := Ascii.ascii_of_nat 95.
Definition space : Ascii.ascii := Ascii.ascii_of_nat 32.

(** [re.sub(r'_$', ' ', prefix)]: [$] matches at the end of the string
    and just before a newline that ends the string, so the one
    underscore in either place becomes a space. *)
Fixpoint sub_trailing_underscore (prefix : string) : string :=
  match prefix with
  | EmptyString => EmptyString
  | String a rest =>
      if Ascii.eqb a underscore
         && (String.eqb rest EmptyString
             || String.eqb rest (String newline EmptyString))
      then String space rest
      else String a (sub_trailing_underscore rest)
  end.

(** [Settings.prefix(ctx, *, prefix=None)] *)
Definition prefix_command (ctx : Ctx) (prefix : option string) (st : Store)
  : Store * list effect :=
  match prefix with
  | None =>
      let bot_prefix := bot_prefix st ctx in
      let description :=
        match ctx_guild ctx with
        | None => "No command prefix, all messages are commands."
        | Some g =>
            "Prefix for " +:+ guild_name g +:+ " is `" +:+ bot_prefix +:+ "`."
        end in
      (st, [Reply dark_teal description SUCCESS])
  | Some prefix =>
      match ctx_guild ctx with
      | None =>
          (st, [Reply dark_red
                  "Cannot set a command prefix outside of a server!" FAIL])
      | Some g =>
          if String.eqb prefix "_" then
            let st' := set_prefix g None st in
            let bot_prefix := bot_prefix st' ctx in
            (st',
             [SqlSetPrefix g None;
              JournalSend "prefix" g "Unset bot command prefix"
                [("icon", VStr "settings"); ("prefix", VNone);
                 ("default_prefix", VStr default_prefix)];
              Reply dark_teal
                ("Unset prefix for " +:+ guild_name g
                   +:+ ". (Default prefix: `" +:+ bot_prefix +:+ "`)")
                SUCCESS])
          else if negb (mod_perm ctx) then
            (st, [Reply dark_red
                    "You do not have permission to set the prefix" DENY])
          else
            let bot_prefix := sub_trailing_underscore prefix in
            (set_prefix g (Some bot_prefix) st,
             [SqlSetPrefix g (Some bot_prefix);
              JournalSend "prefix" g "Unset bot command prefix"
                [("icon", VStr "settings"); ("prefix", VStr bot_prefix);
                 ("default_prefix", VStr default_prefix)];
              Reply dark_teal
                ("Set prefix for " +:+ guild_name g +:+ " to `"
                   +:+ bot_prefix +:+ "`")
                SUCCESS])
      end
  end.

(** [discord.utils.get(roles, id=role_id)]: the first role with that
    id; no role has the id [None]. *)
Definition utils_get (roles : list Role) (id : option Z) : option Role :=
  match id with
  | Some i => List.find (fun r => Z.eqb (role_id r) i) roles
  | None => None
  end.

(** [Settings.get_role(ctx, name)] in a guild: the role, or the reply
    that tells why there is none. *)
Definition get_role (g : Guild) (name : string) (st : Store)
  : option Role * list effect :=
  match utils_get (guild_roles g) (get_role_id name (guild_roles g)) with
  | None =>
      (None,
       [Reply dark_red
          ("No role with description `" +:+ escape_backticks name
             +:+ "` found") FAIL])
  | Some role =>
      if role_is_default role then
        (None,
         [Reply dark_red
            "@everyone role cannot be assigned for this purpose" FAIL])
      else if is_special_role st g role then
        (None,
         [Reply dark_red
            "Cannot assign the same role for multiple purposes" FAIL])
      else (Some role, [])
  end.

(** The strings in which the four commands differ. *)
Definition journal_path (p : purpose) : string :=
  match p with
  | member => "roles/member"
  | guest => "roles/guest"
  | mute => "roles/mute"
  | jail => "roles/jail"
  end.

Definition purpose_name (p : purpose) : string :=
  match p with
  | member => "member"
  | guest => "guest"
  | mute => "mute"
  | jail => "jail"
  end.

Definition set_content (p : purpose) (mention : string) : string :=
  match p with
  | member => "Set member role to " +:+ mention
  | _ => "Set the " +:+ purpose_name p +:+ " role to " +:+ mention
  end.

(** The body the commands [setmember], [setguest], [setmute] and
    [setjail] share, in a guild (they are [guild_only]) and past their
    [check_mod]. *)
Definition set_role (p : purpose) (g : Guild) (name : option string)
    (st : Store) : Store * list effect :=
  let '(go, role, replies) :=
    match name with
    | None => (true, None, [])
    | Some name =>
        match get_role g name st with
        | (None, replies) => (false, None, replies)
        | (Some role, replies) => (true, Some role, replies)
        end
    end in
  if go then
    let '(description, content) :=
      match role with
      | Some r =>
          ("Set " +:+ purpose_name p +:+ " role to " +:+ role_mention r,
           set_content p (role_mention r))
      | None =>
          ("Unset " +:+ purpose_name p +:+ " role",
           "Unset the " +:+ purpose_name p +:+ " role")
      end in
    (set_special_roles g p role st,
     replies ++
     [SqlSetSpecialRole g p role;
      Reply green description SUCCESS;
      JournalSend (journal_path p) g content
        [("icon", VStr "settings"); ("role", of_role role)]])
  else (st, replies).

Definition set_member_role := set_role member.
Definition set_guest_role := set_role guest.
Definition set_mute_role := set_role mute.
Definition set_jail_role := set_role jail.

(** The writes among the effects of a command. *)
Definition is_write (e : effect) : bool :=
  match e with
  | SqlSetPrefix _ _ | SqlSetSpecialRole _ _ _ => true
  | _ => false
  end.

Definition is_journal (e : effect) : bool :=
  match e with JournalSend _ _ _ _ => true | _ => false end.

Definition is_reply (e : effect) : bool :=
  match e with Reply _ _ _ => true | _ => false end.

End settings.

End Settings.

(** ** A concrete journal and concrete hooks, for running the model *)

Module Demo.
Import PurePath Router.

Definition root_a : Path := mk "/" ["a"].
Definition a_b : Path := mk "/" ["a"; "b"].
Definition a_b_c : Path := mk "/" ["a"; "b"; "c"].
Definition a_b_c_d : Path := mk "/" ["a"; "b"; "c"; "d"].

(** Five listener objects: [audit] sits on [/a], [deep] on [/a/b/c/d],
    [flaky] (its handler raises at once), [slow] (its handler suspends
    twice before it returns) and [quiet] (its check refuses all events)
    on [/a/b/c]. *)
Inductive listener := audit | deep | flaky | slow | quiet.

#[global] Instance listener_eq_dec : EqDecision listener.
Proof. solve_decision. Defined.

#[global] Instance journal : Journal listener unit unit string string := {|
  listener_path l :=
    match l with
    | audit => root_a
    | deep => a_b_c_d
    | flaky | slow | quiet => a_b_c
    end;
  getattr l attr :=
    match l with
    | audit => if decide (attr = "channel") then Some "mod-log" else None
    | slow =>
        if decide (attr = "channel") then Some "general"
        else if decide (attr = "kind") then Some "dm" else None
    | _ => None
    end;
  check l _ _ _ _ := match l with quiet => false | _ => true end;
  handle l _ _ _ _ :=
    match l with
    | flaky => Raise "boom"
    | slow => Await (Await Return)
    | _ => Return
    end;
  process_content c _ :=
    if decide (c = EmptyString) then inl "empty" else inr ("<" +:+ c +:+ ">");
|}.

Definition e1 : event := Event a_b_c tt "first" tt.
Definition e2 : event := Event a_b_c tt "second" tt.

(** Hooks that count the guilds they saw; [broken] raises. *)
Inductive hook := count_up | broken | count_twice.

#[global] Instance hook_call : Hooks.Callable hook unit nat string :=
  fun h _ w =>
    match h with
    | count_up => (S w, Hooks.Returned)
    | broken => (w, Hooks.Raised "no table")
    | count_twice => (S (S w), Hooks.Returned)
    end.

(** The registry after the five listeners were registered. *)
Definition registered : gmap Path (list listener) :=
  apply_calls
    [CallRegister audit; CallRegister deep; CallRegister flaky;
     CallRegister slow; CallRegister quiet] ∅.

(** Two events are sent; the first is dispatched, and its three handlers
    each run their first segment: [flaky] raises, [slow] suspends,
    [audit] returns.  The loop then wakes up with the exception. *)
Definition overtaking : list (@choice listener unit unit string) :=
  [DoCall (CallRegister audit); DoCall (CallRegister deep);
   DoCall (CallRegister flaky); DoCall (CallRegister slow);
   DoCall (CallRegister quiet);
   DoSend e1; DoSend e2; DoDispatch; DoRun 0; DoRun 1; DoRun 2; DoResume].

Definition overtaken : @state listener unit unit string :=
  default start (run overtaking start).

(** The same, stopped when [flaky] is about to raise. *)
Definition raising : @state listener unit unit string :=
  default start (run (take 8 overtaking) start).

(** [audit] is registered twice before an event below its path is sent. *)
Definition twice : list (@choice listener unit unit string) :=
  [DoCall (CallRegister audit); DoCall (CallRegister audit); DoSend e1].

Definition registered_twice : @state listener unit unit string :=
  default start (run twice start).

(** [audit], registered at [/a], and one event on [/a/b/c]. *)
Definition below : list (@choice listener unit unit string) :=
  [DoCall (CallRegister audit); DoSend e1; DoDispatch].

Definition dispatched_below : @state listener unit unit string :=
  default start (run below start).

(** A history of [register_hook] calls, one of them with a bad name. *)
Definition hook_calls : list (string * hook) :=
  [("on_guild_join", count_up); ("on_guild_join", broken);
   ("on_guild_ban", count_up); ("on_guild_leave", count_twice);
   ("on_guild_join", count_twice)].

End Demo.

(** ** A concrete guild, for running the settings commands *)

Module SettingsDemo.
Import Settings.

(** The settings of the one guild: its prefix and its special roles, by
    role id. *)
Record store := Store {
  stored_prefix : option string;
  special : list (purpose * nat);
}.

Definition purpose_eqb (p q : purpose) : bool :=
  match p, q with
  | member, member | guest, guest | mute, mute | jail, jail => true
  | _, _ => false
  end.

(** An invocation context: whether it is in the guild and whether the
    author is a moderator.  Roles are their ids; role 0 is [@everyone]. *)
#[global] Instance discord : Discord unit (bool * bool) store nat := {|
  ctx_guild := fun ctx : bool * bool => if fst ctx then Some tt else None;
  guild_name := fun _ => "Programming";
  guild_roles := fun _ => [0; 5; 7; 9];
  role_id := Z.of_nat;
  role_mention := fun r => if Nat.eqb r 5 then "@mods" else "@role";
  role_is_default := fun r => Nat.eqb r 0;
  mod_perm := fun ctx : bool * bool => snd ctx;
  bot_prefix := fun (st : store) _ => default "!" (stored_prefix st);
  default_prefix := "!";
  set_prefix := fun _ p (st : store) => Store p (special st);
  set_special_roles := fun _ p r (st : store) =>
    Store (stored_prefix st)
      (match r with Some x => [(p, x)] | None => [] end
         ++ List.filter (fun e : purpose * nat => negb (purpose_eqb (fst e) p))
              (special st));
  is_special_role := fun (st : store) _ r =>
    List.existsb (fun e : purpose * nat => Nat.eqb (snd e) r) (special st);
  get_role_id := fun name _ =>
    if String.eqb name "mods" then Some 5%Z
    else if String.eqb name "muted" then Some 7%Z
    else if String.eqb name "everyone" then Some 0%Z
    else None;
  escape_backticks := fun name => name;
|}.

Definition fresh : store := Store None [].

End SettingsDemo.

(** ** Further executions of the journal *)

Module Scenarios.
Import PurePath Router Demo.

(** An event whose content the processor refuses. *)
Definition e_empty : event := Event a_b_c tt EmptyString tt.

(** The loop takes [e_empty] and dies; [e1] is sent afterwards. *)
Definition fatal : list (@choice listener unit unit string) :=
  [DoCall (CallRegister audit); DoSend e_empty; DoDispatch].

Definition died : @state listener unit unit string :=
  default start (run fatal start).

(** [flaky] is registered twice, so two handlers of one event raise. *)
Definition two_failures : list (@choice listener unit unit string) :=
  [DoCall (CallRegister flaky); DoCall (CallRegister flaky);
   DoSend e1; DoDispatch; DoRun 0; DoRun 1; DoResume].

Definition failed_twice : @state listener unit unit string :=
  default start (run two_failures start).

(** Only [audit] hears the event, and its handler returns. *)
Definition quiet_success : list (@choice listener unit unit string) :=
  [DoCall (CallRegister audit); DoSend e1; DoDispatch; DoRun 0].

Definition gathered : @state listener unit unit string :=
  default start (run quiet_success start).

(** Nobody accepts the event: [quiet] refuses and [deep] sits below. *)
Definition unheard : list (@choice listener unit unit string) :=
  [DoCall (CallRegister quiet); DoCall (CallRegister deep); DoSend e1].

Definition before_unheard : @state listener unit unit string :=
  default start (run unheard start).

End Scenarios.

(** * Properties *)


Section path_facts.
Import PurePath.

Lemma parents_spec (a p : Path) : a ∈ parents p <-> ancestor a p.
Proof.
  unfold parents, ancestor. rewrite list_elem_of_fmap. split.
  - intros (idx & -> & Hidx). apply elem_of_seq in Hidx. simpl.
    split; [done|].
    exists (drop (length (names p) - idx - 1) (names p)). split.
    + intros Hnil. apply (f_equal length) in Hnil.
      rewrite length_drop in Hnil. simpl in Hnil. lia.
    + by rewrite take_drop.
  - intros (Hanc & rest & Hrest & Hnames).
    exists (length rest - 1). split.
    + destruct a as [an ns]. simpl in *. subst an. f_equal.
      rewrite Hnames, length_app.
      destruct rest as [|r rest]; [done|]. simpl.
      replace (length ns + S (length rest) - (length rest - 0) - 1)
        with (length ns) by lia.
      by rewrite take_app_length.
    + apply elem_of_seq. rewrite Hnames, length_app.
      destruct rest; [done|simpl; lia].
Qed.

Lemma parents_lookup (p : Path) (i : nat) (a : Path) :
  parents p !! i = Some a ->
  depth a = depth p - i - 1 /\ i < depth p.
Proof.
  unfold parents, depth. rewrite list_lookup_fmap.
  destruct (seq 0 (length (names p)) !! i) as [idx|] eqn:Hi; [|done].
  apply lookup_seq in Hi as [-> Hlt]. simpl. intros [= <-]. simpl.
  rewrite length_take. lia.
Qed.

Lemma ancestor_irrefl (p : Path) : ~ ancestor p p.
Proof.
  intros (_ & rest & Hrest & Hn). apply (f_equal length) in Hn.
  rewrite length_app in Hn. destruct rest; [done|simpl in Hn; lia].
Qed.

Lemma ancestor_asym (a p : Path) : ancestor a p -> ~ ancestor p a.
Proof.
  intros (_ & r1 & Hr1 & H1) (_ & r2 & Hr2 & H2).
  apply (f_equal length) in H1, H2. rewrite length_app in H1, H2.
  destruct r1; [done|]. simpl in *. lia.
Qed.

Lemma ancestor_trans (a b c : Path) :
  ancestor a b -> ancestor b c -> ancestor a c.
Proof.
  intros (Ha & r1 & Hr1 & H1) (Hb & r2 & Hr2 & H2). split; [congruence|].
  exists (r1 ++ r2). split.
  - destruct r1; [done|]. done.
  - by rewrite H2, H1, <- (assoc_L (++)).
Qed.

End path_facts.

(** ** The hook registry *)

Section hooks_facts.
Import Hooks.
Context {Hook Args World Exn : Type} `{!Callable Hook Args World Exn}.

Lemma initial_hooks_lookup (name : string) :
  (_hooks : gmap string (list Hook)) !! name
  = if decide (name ∈ HOOK_NAMES) then Some [] else None.
Proof.
  unfold _hooks, HOOK_NAMES. simpl.
  destruct (decide (name = "on_guild_join")) as [->|Hj]; [done|].
  destruct (decide (name = "on_guild_leave")) as [->|Hl]; [done|].
  rewrite !lookup_insert_ne, lookup_empty by done.
  case_decide as Hin; [|done].
  apply elem_of_cons in Hin as [?|Hin]; [done|].
  apply elem_of_cons in Hin as [?|Hin]; [done|].
  by apply elem_of_nil in Hin.
Qed.

Lemma register_hook_lookup (name m : string) (hook : Hook)
    (hooks : gmap string (list Hook)) :
  (register_hook name hook hooks).2 !! m
  = if decide (name ∈ HOOK_NAMES /\ name = m)
    then (fun l => l ++ [hook]) <$> hooks !! m
    else hooks !! m.
Proof.
  unfold register_hook.
  destruct (decide (name ∈ HOOK_NAMES)) as [Hin|Hin]; simpl.
  - destruct (decide (name = m)) as [->|Hne].
    + rewrite decide_True by done.
      destruct (hooks !! m) as [l|] eqn:Hl; simpl.
      * by rewrite lookup_insert_eq.
      * by rewrite Hl.
    + rewrite decide_False by tauto.
      destruct (hooks !! name); simpl; [|done].
      by rewrite lookup_insert_ne.
  - by rewrite decide_False by tauto.
Qed.

Lemma register_all_lookup (cs : list (string * Hook)) (m : string)
    (hooks : gmap string (list Hook)) :
  register_all cs hooks !! m
  = if decide (m ∈ HOOK_NAMES)
    then (fun l => l ++ registered_under m cs) <$> hooks !! m
    else hooks !! m.
Proof.
  revert hooks. induction cs as [|[name hook] cs IH]; intros hooks; simpl.
  - case_decide; [|done]. unfold registered_under. simpl.
    destruct (hooks !! m); simpl; [|done]. by rewrite app_nil_r.
  - rewrite IH, register_hook_lookup. unfold registered_under.
    rewrite filter_cons. simpl.
    destruct (decide (m ∈ HOOK_NAMES)) as [Hm|Hm].
    + destruct (decide (name = m)) as [->|Hne].
      * rewrite decide_True by done.
        destruct (hooks !! m); simpl; [|done].
        by rewrite <- (assoc_L (++)).
      * by rewrite decide_False by tauto.
    + case_decide as Hc; [|done]. destruct Hc as [? ->]. done.
Qed.

Lemma run_loop_spec (l : list Hook) (args : Args) (r : hook_run) :
  called (run_loop l args r) = called r ++ l /\
  errors (run_loop l args r) = errors r ++ failures l args (world r) /\
  world (run_loop l args r) = world_after l args (world r).
Proof.
  revert r. induction l as [|hook l IH]; intros r; simpl.
  - by rewrite !app_nil_r.
  - destruct (call hook args (world r)) as [w [|e]] eqn:Hc.
    + destruct (IH (HookRun w (errors r) (called r ++ [hook])))
        as (I1 & I2 & I3); simpl in *.
      rewrite I1, I2, I3, <- (assoc_L (++)). done.
    + destruct (IH (HookRun w (errors r ++ [(hook, e)]) (called r ++ [hook])))
        as (J1 & J2 & J3); simpl in *.
      rewrite J1, J2, J3, <- !(assoc_L (++)). done.
Qed.

(** C9: for a registry built by [register_hook] calls, [run_hooks] on a
    hook name returns normally, having called every hook registered under
    that name in registration order, whichever of them raised; each
    raising hook leaves one error record in the log; and the only error
    [run_hooks] can end with is the [KeyError] of a missing name, never an
    exception of a hook. *)
Theorem run_hooks_calls_every_hook (cs : list (string * Hook))
    (name : string) (args : Args) (w : World) :
  name ∈ HOOK_NAMES ->
  (exists r,
     run_hooks name args (register_all cs _hooks) w = inr r /\
     called r = registered_under name cs /\
     errors r = failures (registered_under name cs) args w /\
     world r = world_after (registered_under name cs) args w) /\
  (forall hooks err,
     run_hooks name args hooks w = inl err ->
     err = KeyError name /\ hooks !! name = None).
Proof.
  intros Hin. split.
  - unfold run_hooks.
    rewrite register_all_lookup, decide_True, initial_hooks_lookup,
      decide_True by done.
    simpl. eexists. split; [done|].
    destruct (run_loop_spec (registered_under name cs) args (HookRun w [] []))
      as (H1 & H2 & H3).
    done.
  - intros hooks err. unfold run_hooks.
    destruct (hooks !! name); [done|]. by intros [= <-].
Qed.

(** C10: [register_hook] raises [ValueError] exactly for the names
    outside [HOOK_NAMES] and then leaves the registry as it was; for a
    name of [HOOK_NAMES] it raises nothing and appends the hook to that
    name's list.  So after any history of calls the keys are [HOOK_NAMES]
    and each list holds the hooks registered under its name, in order. *)
Theorem register_hook_guards_names (cs : list (string * Hook))
    (name : string) (hook : Hook) :
  let hooks := register_all cs _hooks in
  ((register_hook name hook hooks).1 = Some (ValueError name)
     <-> name ∉ HOOK_NAMES) /\
  (name ∉ HOOK_NAMES -> (register_hook name hook hooks).2 = hooks) /\
  (name ∈ HOOK_NAMES ->
     register_hook name hook hooks
     = (None, <[name := registered_under name cs ++ [hook]]> hooks)) /\
  dom hooks = list_to_set HOOK_NAMES /\
  (forall n, n ∈ HOOK_NAMES -> hooks !! n = Some (registered_under n cs)).
Proof.
  intros hooks.
  assert (Hlook : forall n, n ∈ HOOK_NAMES ->
            hooks !! n = Some (registered_under n cs)).
  { intros n Hn. unfold hooks.
    by rewrite register_all_lookup, decide_True, initial_hooks_lookup,
      decide_True by done. }
  repeat split.
  - unfold register_hook. case_decide as Hin; [|done].
    rewrite (Hlook _ Hin). done.
  - intros Hin. unfold register_hook. by rewrite decide_False.
  - intros Hin. unfold register_hook. by rewrite decide_False.
  - intros Hin. unfold register_hook.
    by rewrite decide_True, (Hlook _ Hin) by done.
  - apply set_eq. intros n. rewrite elem_of_dom, elem_of_list_to_set.
    unfold hooks. rewrite register_all_lookup, initial_hooks_lookup.
    destruct (decide (n ∈ HOOK_NAMES)) as [Hin|Hin]; simpl.
    + split; [done|]. intros _. by eexists.
    + split; [intros [? ?]; done | done].
  - done.
Qed.

End hooks_facts.

(** ** The listener registry *)

Section registry_facts.
Import PurePath Router.
Context {Listener Guild Attrs Value Exn : Type}.
Context `{!Journal Listener Guild Attrs Value Exn}.
Context `{!EqDecision Listener, !EqDecision Value}.

Implicit Types (paths : gmap Path (list Listener)) (l : Listener).

Lemma bucket_insert paths (p q : Path) (b : list Listener) :
  bucket (<[p := b]> paths) q = if decide (p = q) then b else bucket paths q.
Proof.
  unfold bucket. case_decide as Hpq.
  - subst. by rewrite lookup_insert_eq.
  - by rewrite lookup_insert_ne.
Qed.

Lemma getitem_fst paths (p : Path) :
  (paths_getitem paths p).1 = bucket paths p.
Proof. unfold paths_getitem, bucket. by destruct (paths !! p). Qed.

Lemma getitem_bucket paths (p q : Path) :
  bucket (paths_getitem paths p).2 q = bucket paths q.
Proof.
  unfold paths_getitem. destruct (paths !! p) as [b|] eqn:Hp; simpl; [done|].
  rewrite bucket_insert. case_decide; [|done]. subst. unfold bucket.
  by rewrite Hp.
Qed.

Lemma getitem_present paths (p : Path) :
  is_Some (paths !! p) -> (paths_getitem paths p).2 = paths.
Proof. intros [b Hb]. unfold paths_getitem. by rewrite Hb. Qed.

Lemma bucket_register paths l (q : Path) :
  bucket (register paths l) q
  = if decide (listener_path l = q) then bucket paths q ++ [l]
    else bucket paths q.
Proof.
  unfold register.
  pose proof (getitem_fst paths (listener_path l)) as Hf.
  pose proof (getitem_bucket paths (listener_path l) q) as Hb.
  destruct (paths_getitem paths (listener_path l)) as [b paths'].
  simpl in *. rewrite bucket_insert. case_decide; [|done]. by subst.
Qed.

Lemma list_remove_first_None l (ls : list Listener) :
  list_remove_first l ls = None <-> l ∉ ls.
Proof.
  induction ls as [|y ls IH]; simpl.
  - split; [intros _; apply not_elem_of_nil | done].
  - case_decide as Hy.
    + subst. split; [done|]. intros Hn. destruct Hn. left.
    + rewrite not_elem_of_cons, <- IH.
      destruct (list_remove_first l ls); simpl.
      * split; [done|]. by intros [_ ?].
      * split; [|done]. intros _. split; [congruence|done].
Qed.

Lemma list_remove_first_Some l (ls ls' : list Listener) :
  list_remove_first l ls = Some ls' <->
  exists pre post, ls = pre ++ l :: post /\ (l ∉ pre) /\ ls' = pre ++ post.
Proof.
  revert ls'. induction ls as [|y ls IH]; intros ls'; simpl.
  - split; [done|]. intros (pre & post & Heq & _). by destruct pre.
  - case_decide as Hy.
    + subst y. split.
      * intros [= <-]. exists [], ls. split; [done|].
        split; [apply not_elem_of_nil|done].
      * intros (pre & post & Heq & Hpre & ->).
        destruct pre as [|z pre]; simpl in *.
        -- by injection Heq as ->.
        -- injection Heq as -> _. destruct Hpre. left.
    + split.
      * destruct (list_remove_first l ls) as [r|] eqn:Hr; simpl; [|done].
        intros [= <-].
        destruct (proj1 (IH r) eq_refl) as (pre & post & -> & Hpre & ->).
        exists (y :: pre), post. split; [done|].
        split; [|done]. rewrite not_elem_of_cons. split; [congruence|done].
      * intros (pre & post & Heq & Hpre & ->).
        destruct pre as [|z pre]; simpl in *.
        -- injection Heq as ? _. done.
        -- injection Heq as -> ->.
           apply not_elem_of_cons in Hpre as [_ Hpre].
           assert (Hr : list_remove_first l (pre ++ l :: post)
                        = Some (pre ++ post)).
           { apply IH. by exists pre, post. }
           by rewrite Hr.
Qed.

Lemma bucket_unregister paths l (q : Path) :
  bucket (unregister paths l).2 q
  = if decide (listener_path l = q)
    then default (bucket paths q) (list_remove_first l (bucket paths q))
    else bucket paths q.
Proof.
  unfold unregister.
  pose proof (getitem_fst paths (listener_path l)) as Hf.
  pose proof (getitem_bucket paths (listener_path l) q) as Hb.
  destruct (paths_getitem paths (listener_path l)) as [b paths'].
  simpl in *. subst b.
  destruct (list_remove_first l (bucket paths (listener_path l)))
    as [b'|] eqn:Hr; simpl.
  - rewrite bucket_insert. case_decide; [|done]. subst q. by rewrite Hr.
  - case_decide; [|done]. subst q. by rewrite Hr.
Qed.

Lemma unregister_fst paths l :
  (unregister paths l).1
  = match list_remove_first l (bucket paths (listener_path l)) with
    | Some _ => None
    | None => Some ValueError
    end.
Proof.
  unfold unregister.
  pose proof (getitem_fst paths (listener_path l)) as Hf.
  destruct (paths_getitem paths (listener_path l)) as [b paths'].
  simpl in *. subst b.
  by destruct (list_remove_first l (bucket paths (listener_path l))).
Qed.

Lemma bucket_get paths (p q : Path) (attrs : list (string * Value)) :
  bucket (get paths p attrs).2 q = bucket paths q.
Proof.
  unfold get. pose proof (getitem_bucket paths p q) as Hb.
  by destruct (paths_getitem paths p).
Qed.

Lemma bucket_empty (q : Path) :
  bucket (∅ : gmap Path (list Listener)) q = [].
Proof. unfold bucket. by rewrite lookup_empty. Qed.

Lemma own_paths_apply_call paths (c : registry_call) :
  own_paths paths -> own_paths (apply_call paths c).
Proof.
  intros Hown path l. destruct c as [r|u|p attrs]; simpl.
  - rewrite bucket_register. case_decide as Hp.
    + rewrite elem_of_app, list_elem_of_singleton.
      intros [Hin| ->]; [by apply Hown|done].
    + apply Hown.
  - rewrite bucket_unregister. case_decide as Hp; [|apply Hown].
    destruct (list_remove_first u (bucket paths path)) as [b'|] eqn:Hr;
      simpl; [|apply Hown].
    apply list_remove_first_Some in Hr as (pre & post & Hb & _ & ->).
    intros Hin. apply Hown. rewrite Hb.
    apply elem_of_app in Hin as [?|?]; apply elem_of_app; [by left|].
    right. by right.
  - rewrite bucket_get. apply Hown.
Qed.

Lemma own_paths_apply_calls (cs : list registry_call) paths :
  own_paths paths -> own_paths (apply_calls cs paths).
Proof.
  revert paths. induction cs as [|c cs IH]; intros paths Hown; simpl; [done|].
  apply IH. by apply own_paths_apply_call.
Qed.

Lemma own_paths_empty : own_paths (∅ : gmap Path (list Listener)).
Proof. intros path l. rewrite bucket_empty. by intros ?%elem_of_nil. Qed.

Lemma attrs_match_spec l (attrs : list (string * Value)) :
  attrs_match l attrs = true <-> matches l attrs.
Proof.
  unfold matches. induction attrs as [|[attr value] attrs IH]; simpl.
  - split; [|done]. intros _ ? ? ?%elem_of_nil. done.
  - destruct (getattr l attr) as [v|] eqn:Hv.
    + case_decide as Heq.
      * subst v. rewrite IH. split.
        -- intros Hall a x [[= -> ->]|Hin]%elem_of_cons; [done|by apply Hall].
        -- intros Hall a x Hin. apply Hall. by right.
      * split; [done|]. intros Hall.
        specialize (Hall attr value (list_elem_of_here _ _)). congruence.
    + split; [done|]. intros Hall.
      specialize (Hall attr value (list_elem_of_here _ _)). congruence.
Qed.

Lemma first_match_Some (ls : list Listener) (attrs : list (string * Value)) l :
  first_match ls attrs = Some l <->
  exists pre post, ls = pre ++ l :: post /\ matches l attrs /\
                   Forall (fun x => ~ matches x attrs) pre.
Proof.
  induction ls as [|y ls IH]; simpl.
  - split; [done|]. intros (pre & post & Heq & _). by destruct pre.
  - destruct (attrs_match y attrs) eqn:Hy.
    + apply attrs_match_spec in Hy. split.
      * intros [= <-]. by exists [], ls.
      * intros (pre & post & Heq & Hl & Hpre).
        destruct pre as [|z pre]; simpl in *.
        -- by injection Heq as ->.
        -- injection Heq as -> _. by apply Forall_cons in Hpre as [? _].
    + assert (Hny : ~ matches y attrs).
      { rewrite <- attrs_match_spec. congruence. }
      rewrite IH. split.
      * intros (pre & post & -> & Hl & Hpre). exists (y :: pre), post.
        split; [done|]. split; [done|]. by constructor.
      * intros (pre & post & Heq & Hl & Hpre).
        destruct pre as [|z pre]; simpl in *.
        -- injection Heq as -> _. done.
        -- injection Heq as -> ->. apply Forall_cons in Hpre as [_ Hpre].
           by exists pre, post.
Qed.

Lemma first_match_None (ls : list Listener) (attrs : list (string * Value)) :
  first_match ls attrs = None <-> Forall (fun x => ~ matches x attrs) ls.
Proof.
  induction ls as [|y ls IH]; simpl.
  - split; [by constructor|done].
  - destruct (attrs_match y attrs) eqn:Hy.
    + apply attrs_match_spec in Hy. split; [done|].
      by intros [? _]%Forall_cons.
    + assert (Hny : ~ matches y attrs).
      { rewrite <- attrs_match_spec. congruence. }
      rewrite IH. split; [by constructor|]. by intros [_ ?]%Forall_cons.
Qed.

Lemma bucket_registers (regs : list Listener) paths (q : Path) :
  bucket (foldl register paths regs) q
  = bucket paths q ++ filter (fun l => listener_path l = q) regs.
Proof.
  revert paths. induction regs as [|r regs IH]; intros paths; simpl.
  - by rewrite app_nil_r.
  - rewrite IH, bucket_register, filter_cons.
    case_decide; [|done]. by rewrite <- (assoc_L (++)).
Qed.

(** C6: [unregister] takes the first occurrence of the listener out of
    the bucket of its path and leaves every other entry and every other
    bucket as they were; when the listener is not in that bucket it fails
    with the [ValueError] of [list.remove] and no bucket changes (a key
    that was already there keeps the whole mapping as it was).  A
    [register] followed by [unregister] on an empty bucket leaves the
    bucket empty. *)
Theorem unregister_removes_first_occurrence paths l :
  (l ∈ bucket paths (listener_path l) ->
     (unregister paths l).1 = None /\
     exists pre post,
       bucket paths (listener_path l) = pre ++ l :: post /\
       (l ∉ pre) /\
       bucket (unregister paths l).2 (listener_path l) = pre ++ post) /\
  (forall q, q <> listener_path l ->
     bucket (unregister paths l).2 q = bucket paths q) /\
  (l ∉ bucket paths (listener_path l) ->
     (unregister paths l).1 = Some ValueError /\
     (forall q, bucket (unregister paths l).2 q = bucket paths q) /\
     (is_Some (paths !! listener_path l) -> (unregister paths l).2 = paths)) /\
  (bucket paths (listener_path l) = [] ->
     (unregister (register paths l) l).1 = None /\
     bucket (unregister (register paths l) l).2 (listener_path l) = []).
Proof.
  split; [|split; [|split]].
  - intros Hin.
    destruct (list_remove_first l (bucket paths (listener_path l)))
      as [b'|] eqn:Hr.
    + split; [by rewrite unregister_fst, Hr|].
      pose proof Hr as Hr'.
      apply list_remove_first_Some in Hr' as (pre & post & Hb & Hpre & ->).
      exists pre, post. split; [done|]. split; [done|].
      by rewrite bucket_unregister, decide_True, Hr.
    + by apply list_remove_first_None in Hr.
  - intros q Hq. by rewrite bucket_unregister, decide_False.
  - intros Hnot. apply list_remove_first_None in Hnot.
    split; [by rewrite unregister_fst, Hnot|]. split.
    + intros q. rewrite bucket_unregister. case_decide; [|done]. subst q.
      by rewrite Hnot.
    + intros Hkey. unfold unregister.
      pose proof (getitem_fst paths (listener_path l)) as Hf.
      pose proof (getitem_present paths (listener_path l) Hkey) as Hp.
      destruct (paths_getitem paths (listener_path l)) as [b paths'].
      simpl in *. subst b paths'. by rewrite Hnot.
  - intros Hempty. split.
    + rewrite unregister_fst, bucket_register, decide_True, Hempty by done.
      simpl. by rewrite decide_True.
    + rewrite bucket_unregister, decide_True, bucket_register, decide_True,
        Hempty by done.
      simpl. by rewrite decide_True.
Qed.

(** C7: [get] returns the first listener of the bucket of [path] every
    attribute of [attrs] of which it has, with an equal value, and none
    when the bucket holds no such listener; only that bucket is looked
    at.  A path with no registrations has the empty bucket, so [get]
    returns none there.  Buckets hold their listeners in registration
    order. *)
Theorem get_first_matching_listener paths (path : Path)
    (attrs : list (string * Value)) :
  (forall l,
     (get paths path attrs).1 = Some l <->
     exists pre post,
       bucket paths path = pre ++ l :: post /\ matches l attrs /\
       Forall (fun x => ~ matches x attrs) pre) /\
  ((get paths path attrs).1 = None <->
     Forall (fun x => ~ matches x attrs) (bucket paths path)) /\
  (paths !! path = None ->
     (paths_getitem paths path).1 = [] /\ (get paths path attrs).1 = None) /\
  (forall q, bucket (get paths path attrs).2 q = bucket paths q) /\
  (forall regs,
     bucket (foldl register ∅ regs) path
     = filter (fun l => listener_path l = path) regs).
Proof.
  assert (Hget : (get paths path attrs).1
                 = first_match (bucket paths path) attrs).
  { unfold get. pose proof (getitem_fst paths path) as Hf.
    destruct (paths_getitem paths path). simpl in *. by subst. }
  split; [|split; [|split; [|split]]].
  - intros l. rewrite Hget. apply first_match_Some.
  - rewrite Hget. apply first_match_None.
  - intros Hnone. rewrite Hget, getitem_fst. unfold bucket. by rewrite Hnone.
  - intros q. apply bucket_get.
  - intros regs. by rewrite bucket_registers, bucket_empty.
Qed.

End registry_facts.

(** ** One pass of the dispatch loop *)

Section dispatch_facts.
Import PurePath Router.
Context {Listener Guild Attrs Value Exn : Type}.
Context `{!Journal Listener Guild Attrs Value Exn}.
Context `{!EqDecision Listener, !EqDecision Value}.

Local Abbreviation obs := (@Router.obs Listener Guild Attrs Exn).
Local Abbreviation event := (@Router.event Guild Attrs).
Local Abbreviation state := (@Router.state Listener Guild Attrs Exn).

Implicit Types (paths : gmap Path (list Listener)) (l : Listener).
Implicit Types (g : Guild) (c : string) (a : Attrs) (tr calls : list obs).

Lemma handler_calls_app calls1 calls2 :
  handler_calls (calls1 ++ calls2)
  = handler_calls calls1 ++ handler_calls calls2.
Proof. apply omap_app. Qed.

Lemma bucket_calls_cons l (ls : list Listener) (path ev_path : Path) g c a :
  bucket_calls (l :: ls) path ev_path g c a
  = (CallCheck l path g c a ::
     if check l path g c a then [CallHandle l ev_path g c a] else [])
    ++ bucket_calls ls path ev_path g c a.
Proof. unfold bucket_calls. by rewrite bind_cons. Qed.

Lemma path_calls_cons paths (p : Path) (ps : list Path) (ev_path : Path)
    g c a :
  path_calls paths (p :: ps) ev_path g c a
  = bucket_calls (bucket paths p) p ev_path g c a
    ++ path_calls paths ps ev_path g c a.
Proof. unfold path_calls. by rewrite bind_cons. Qed.

Lemma scan_bucket_spec (ls : list Listener) (path ev_path : Path) g c a
    (events : list (coroutine Exn)) tr :
  scan_bucket ls path ev_path g c a events tr
  = (events ++ handler_calls (bucket_calls ls path ev_path g c a),
     tr ++ bucket_calls ls path ev_path g c a).
Proof.
  revert events tr. induction ls as [|l ls IH]; intros events tr.
  - simpl. by rewrite !app_nil_r.
  - cbn [scan_bucket]. rewrite bucket_calls_cons.
    destruct (check l path g c a) eqn:Hc; rewrite IH, handler_calls_app;
      simpl; rewrite <- ?(assoc_L (++)); done.
Qed.

Lemma path_calls_ext paths paths' (ps : list Path) (ev_path : Path) g c a :
  (forall q, bucket paths' q = bucket paths q) ->
  path_calls paths' ps ev_path g c a = path_calls paths ps ev_path g c a.
Proof.
  intros Hb. unfold path_calls. apply list_bind_ext; [|done].
  intros q. by rewrite Hb.
Qed.

Lemma scan_paths_spec (ps : list Path) (ev_path : Path) g c a paths
    (events : list (coroutine Exn)) tr :
  exists paths',
    scan_paths ps ev_path g c a paths events tr
    = (paths', events ++ handler_calls (path_calls paths ps ev_path g c a),
       tr ++ path_calls paths ps ev_path g c a) /\
    forall q, bucket paths' q = bucket paths q.
Proof.
  revert paths events tr.
  induction ps as [|p ps IH]; intros paths events tr.
  - exists paths. simpl. by rewrite !app_nil_r.
  - cbn [scan_paths].
    pose proof (getitem_fst paths p) as Hf.
    pose proof (getitem_bucket paths p) as Hb.
    destruct (paths_getitem paths p) as [b paths1]. simpl in Hf, Hb. subst b.
    rewrite scan_bucket_spec.
    destruct (IH paths1
                (events ++ handler_calls
                             (bucket_calls (bucket paths p) p ev_path g c a))
                (tr ++ bucket_calls (bucket paths p) p ev_path g c a))
      as (paths' & -> & Hsame).
    exists paths'. split.
    + rewrite path_calls_cons, handler_calls_app, (path_calls_ext paths paths1)
        by done.
      by rewrite <- !(assoc_L (++)).
    + intros q. by rewrite Hsame, Hb.
Qed.

Lemma elem_of_bucket_calls (ls : list Listener) (path ev_path : Path) g c a
    (o : obs) :
  o ∈ bucket_calls ls path ev_path g c a <->
  exists l, l ∈ ls /\
    (o = CallCheck l path g c a \/
     (o = CallHandle l ev_path g c a /\ check l path g c a = true)).
Proof.
  unfold bucket_calls. rewrite list_elem_of_bind. split.
  - intros (l & Ho & Hl). exists l. split; [done|].
    apply elem_of_cons in Ho as [->|Ho]; [by left|].
    destruct (check l path g c a); [|by apply elem_of_nil in Ho].
    apply list_elem_of_singleton in Ho as ->. by right.
  - intros (l & Hl & [->|[-> Hc]]); exists l; (split; [|done]).
    + left.
    + right. rewrite Hc. left.
Qed.

Lemma elem_of_path_calls paths (ps : list Path) (ev_path : Path) g c a
    (o : obs) :
  o ∈ path_calls paths ps ev_path g c a <->
  exists q l, q ∈ ps /\ l ∈ bucket paths q /\
    (o = CallCheck l q g c a \/
     (o = CallHandle l ev_path g c a /\ check l q g c a = true)).
Proof.
  unfold path_calls. rewrite list_elem_of_bind. split.
  - intros (q & Ho & Hq). apply elem_of_bucket_calls in Ho as (l & ? & ?).
    by exists q, l.
  - intros (q & l & Hq & Hl & Ho). exists q. split; [|done].
    apply elem_of_bucket_calls. by exists l.
Qed.

Lemma checked_bucket_calls (ls : list Listener) (path ev_path : Path) g c a :
  checked (bucket_calls ls path ev_path g c a) = ls.
Proof.
  induction ls as [|l ls IH]; [done|].
  rewrite bucket_calls_cons. unfold checked in *. rewrite omap_app, IH.
  by destruct (check l path g c a).
Qed.

Lemma handled_bucket_calls (ls : list Listener) (path ev_path : Path) g c a :
  handled (bucket_calls ls path ev_path g c a)
  = filter (fun l => check l path g c a = true) ls.
Proof.
  induction ls as [|l ls IH]; [done|].
  rewrite bucket_calls_cons, filter_cons. unfold handled in *.
  rewrite omap_app, IH.
  destruct (check l path g c a); simpl; done.
Qed.

Lemma checked_app calls1 calls2 :
  checked (calls1 ++ calls2) = checked calls1 ++ checked calls2.
Proof. apply omap_app. Qed.

Lemma handled_app calls1 calls2 :
  handled (calls1 ++ calls2) = handled calls1 ++ handled calls2.
Proof. apply omap_app. Qed.

Lemma checked_path_calls paths (ps : list Path) (ev_path : Path) g c a :
  checked (path_calls paths ps ev_path g c a) = ps ≫= bucket paths.
Proof.
  induction ps as [|p ps IH]; [done|].
  by rewrite path_calls_cons, bind_cons, checked_app, IH,
    checked_bucket_calls.
Qed.

Lemma handled_path_calls paths (ps : list Path) (ev_path : Path) g c a :
  handled (path_calls paths ps ev_path g c a)
  = ps ≫= fun p => filter (fun l => check l p g c a = true) (bucket paths p).
Proof.
  induction ps as [|p ps IH]; [done|].
  by rewrite path_calls_cons, bind_cons, handled_app, IH,
    handled_bucket_calls.
Qed.



Lemma match_set_spec (p q : Path) :
  q ∈ match_set p <-> q = p \/ ancestor q p.
Proof. unfold match_set. by rewrite elem_of_cons, parents_spec. Qed.

Lemma match_set_most_specific_first (p : Path) (i j : nat) (qi qj : Path) :
  i < j -> match_set p !! i = Some qi -> match_set p !! j = Some qj ->
  depth qj < depth qi.
Proof.
  unfold match_set. intros Hij Hi Hj.
  destruct j as [|j]; [lia|]. simpl in Hj.
  apply parents_lookup in Hj as [Hdj Hj].
  destruct i as [|i]; simpl in Hi.
  - injection Hi as <-. lia.
  - apply parents_lookup in Hi as [Hdi Hi]. lia.
Qed.

Lemma handler_calls_elem l (p : Path) g c a calls :
  CallHandle l p g c a ∈ calls -> handle l p g c a ∈ handler_calls calls.
Proof.
  intros Hin. unfold handler_calls. apply list_elem_of_omap.
  by exists (CallHandle l p g c a).
Qed.

Lemma checked_elem l calls :
  l ∈ checked calls <-> exists q g c a, CallCheck l q g c a ∈ calls.
Proof.
  unfold checked. rewrite list_elem_of_omap. split.
  - intros (o & Ho & Hl). destruct o; try done. injection Hl as ->. eauto.
  - intros (q & g & c & a & Ho). by exists (CallCheck l q g c a).
Qed.

Lemma handled_elem l calls :
  l ∈ handled calls <-> exists q g c a, CallHandle l q g c a ∈ calls.
Proof.
  unfold handled. rewrite list_elem_of_omap. split.
  - intros (o & Ho & Hl). destruct o; try done. injection Hl as ->. eauto.
  - intros (q & g & c & a & Ho). by exists (CallHandle l q g c a).
Qed.

(** The two loops of lines 76-81 on the match set of a path: who is
    checked, in which order, and who is handed the event. *)
Lemma scan_paths_on_match_set paths (p : Path) g c a
    (events : list (coroutine Exn)) tr :
  own_paths paths ->
  exists paths' calls,
    scan_paths (match_set p) p g c a paths events tr
    = (paths', events ++ handler_calls calls, tr ++ calls) /\
    checked calls = match_set p ≫= bucket paths /\
    (forall q, q ∈ match_set p <-> q = p \/ ancestor q p) /\
    (forall i j qi qj,
       i < j -> match_set p !! i = Some qi -> match_set p !! j = Some qj ->
       depth qj < depth qi) /\
    (forall q l,
       ancestor q p -> l ∈ bucket paths q -> check l q g c a = true ->
       CallHandle l p g c a ∈ calls /\
       handle l p g c a ∈ handler_calls calls) /\
    (forall l,
       ancestor p (listener_path l) ->
       (l ∉ checked calls) /\ (l ∉ handled calls)).
Proof.
  intros Hown.
  destruct (scan_paths_spec (match_set p) p g c a paths events tr)
    as (paths' & Hscan & _).
  exists paths', (path_calls paths (match_set p) p g c a).
  split; [done|]. split; [apply checked_path_calls|].
  split; [apply match_set_spec|].
  split; [apply match_set_most_specific_first|]. split.
  - intros q l Hanc Hl Hc.
    assert (Hin : CallHandle l p g c a ∈ path_calls paths (match_set p) p g c a).
    { apply elem_of_path_calls. exists q, l. split.
      - apply match_set_spec. by right.
      - split; [done|]. by right. }
    split; [done|]. by apply handler_calls_elem.
  - intros l Hbelow.
    assert (Hnot : forall q, q ∈ match_set p -> l ∉ bucket paths q).
    { intros q Hq Hl. apply Hown in Hl. subst q.
      apply match_set_spec in Hq as [Heq|Hanc].
      - rewrite Heq in Hbelow. by apply ancestor_irrefl in Hbelow.
      - by apply ancestor_asym in Hanc. }
    split.
    + rewrite checked_elem. intros (q & g' & c' & a' & Ho).
      apply elem_of_path_calls in Ho as (q' & l' & Hq' & Hl' & [Ho|[Ho _]]);
        [|done].
      injection Ho as -> -> _ _ _. by apply (Hnot q').
    + rewrite handled_elem. intros (q & g' & c' & a' & Ho).
      apply elem_of_path_calls in Ho as (q' & l' & Hq' & Hl' & [Ho|[Ho _]]);
        [done|].
      injection Ho as -> _ _ _ _. by apply (Hnot q').
Qed.

(** What line 78 passes to [check]: the path of the bucket under
    examination, which is the path the listener is registered at; line 80
    passes the event's path to [handle]. *)
Lemma check_receives_bucket_path paths (p q : Path) g c a g' c' a' l :
  own_paths paths ->
  CallCheck l q g' c' a' ∈ path_calls paths (match_set p) p g c a ->
  q = listener_path l /\ (q = p \/ ancestor q p).
Proof.
  intros Hown Ho.
  apply elem_of_path_calls in Ho as (q' & l' & Hq' & Hl' & [Ho|[Ho _]]);
    [|done].
  injection Ho as -> -> _ _ _. split.
  - symmetry. by apply Hown.
  - by apply match_set_spec.
Qed.

Lemma handle_receives_event_path paths (p q : Path) g c a g' c' a' l :
  CallHandle l q g' c' a' ∈ path_calls paths (match_set p) p g c a -> q = p.
Proof.
  intros Ho.
  apply elem_of_path_calls in Ho as (q' & l' & Hq' & Hl' & [Ho|[Ho _]]);
    [done|].
  by injection Ho as _ -> _ _ _.
Qed.

End dispatch_facts.

(** ** The dispatch loop under any schedule *)

Section loop_facts.
Import PurePath Router.
Context {Listener Guild Attrs Value Exn : Type}.
Context `{!Journal Listener Guild Attrs Value Exn}.
Context `{!EqDecision Listener, !EqDecision Value}.

Local Abbreviation obs := (@Router.obs Listener Guild Attrs Exn).
Local Abbreviation event := (@Router.event Guild Attrs).
Local Abbreviation state := (@Router.state Listener Guild Attrs Exn).
Local Abbreviation task := (@Router.task Exn).
Local Abbreviation choice := (@Router.choice Listener Guild Attrs Value).

Implicit Types (s : state) (ev : event) (q : list event) (t : task).
Implicit Types (tr calls : list obs) (l : Listener) (e : Exn).

Lemma dispatch_raised ev q s e :
  process_content (content ev) (attributes ev) = inl e ->
  dispatch ev q s
  = State (paths s) q (events s) (Dead e) (iteration s) (tasks s)
      (trace s ++ [QueueGet ev; CallProcess (content ev) (attributes ev)]).
Proof. intros He. unfold dispatch. by rewrite He. Qed.

Lemma dispatch_processed ev q s (c : string) :
  process_content (content ev) (attributes ev) = inr c ->
  exists paths',
    (forall p, bucket paths' p = bucket (paths s) p) /\
    dispatch ev q s
    = let evs := events s ++ handler_calls (event_calls (paths s) ev c) in
      State paths' q evs (Awaiting (gather_future evs)) (iteration s)
        (tasks s ++ spawn (iteration s) evs)
        ((trace s ++ [QueueGet ev; CallProcess (content ev) (attributes ev)])
           ++ event_calls (paths s) ev c).
Proof.
  intros Hc. unfold dispatch. rewrite Hc.
  destruct (scan_paths_spec (match_set (event_path ev)) (event_path ev)
              (guild ev) c (attributes ev) (paths s) (events s)
              (trace s ++ [QueueGet ev; CallProcess (content ev) (attributes ev)]))
    as (paths' & -> & Hsame).
  by exists paths'.
Qed.

Lemma puts_app tr tr' : puts (tr ++ tr') = puts tr ++ puts tr'.
Proof. apply omap_app. Qed.

Lemma gets_app tr tr' : gets (tr ++ tr') = gets tr ++ gets tr'.
Proof. apply omap_app. Qed.

Lemma logged_app (n : nat) tr tr' : logged n tr -> logged n (tr ++ tr').
Proof. intros [e He]. exists e. apply elem_of_app. by left. Qed.

Lemma event_calls_shape (paths : gmap Path (list Listener)) ev (c : string)
    (o : obs) :
  o ∈ event_calls paths ev c ->
  exists l p, o = CallCheck l p (guild ev) c (attributes ev) \/
              o = CallHandle l p (guild ev) c (attributes ev).
Proof.
  intros Ho. apply elem_of_path_calls in Ho as (p & l & _ & _ & [->|[-> _]]);
    eauto.
Qed.

Lemma omap_none {A B : Type} (f : A -> option B) (xs : list A) :
  (forall x, x ∈ xs -> f x = None) -> omap f xs = [].
Proof.
  induction xs as [|x xs IH]; intros Hall; [done|]. simpl.
  rewrite (Hall x) by left. apply IH. intros y Hy. apply Hall. by right.
Qed.

Lemma puts_event_calls (paths : gmap Path (list Listener)) ev (c : string) :
  puts (event_calls paths ev c) = [].
Proof.
  apply omap_none. intros o Ho.
  by apply event_calls_shape in Ho as (l & p & [->| ->]).
Qed.

Lemma gets_event_calls (paths : gmap Path (list Listener)) ev (c : string) :
  gets (event_calls paths ev c) = [].
Proof.
  apply omap_none. intros o Ho.
  by apply event_calls_shape in Ho as (l & p & [->| ->]).
Qed.

Lemma log_event_calls (paths : gmap Path (list Listener)) ev (c : string)
    (n : nat) e :
  LogError n e ∉ event_calls paths ev c.
Proof.
  intros Ho. by apply event_calls_shape in Ho as (l & p & [?|?]).
Qed.

(** What holds of every state an execution reaches. *)
Record inv (s : state) : Prop := {
  inv_fifo : puts (trace s) = gets (trace s) ++ queue s;
  inv_events : loop s = Waiting -> events s = [];
  inv_iteration : forall tid t,
    tasks s !! tid = Some t ->
    t_iteration t <= iteration s /\
    (t_iteration t = iteration s -> exists o, loop s = Awaiting o);
  inv_pending : forall tid t,
    tasks s !! tid = Some t -> pending t = true ->
    (t_iteration t = iteration s /\
     (loop s = Awaiting Unresolved \/ exists e, loop s = Awaiting (Exception e)))
    \/ logged (t_iteration t) (trace s);
  inv_failed : forall tid t e,
    tasks s !! tid = Some t -> t_status t = Failed e ->
    (t_iteration t = iteration s /\ exists e', loop s = Awaiting (Exception e'))
    \/ logged (t_iteration t) (trace s);
  inv_unresolved :
    loop s = Awaiting Unresolved ->
    exists tid t,
      tasks s !! tid = Some t /\ t_iteration t = iteration s /\
      pending t = true;
  inv_exception : forall e,
    loop s = Awaiting (Exception e) ->
    exists tid, tasks s !! tid = Some (Task (iteration s) (Failed e));
  inv_log : forall n e,
    LogError n e ∈ trace s ->
    n < iteration s /\ exists tid, tasks s !! tid = Some (Task n (Failed e));
  inv_dead : forall e,
    loop s = Dead e ->
    exists ev,
      QueueGet ev ∈ trace s /\
      process_content (content ev) (attributes ev) = inl e;
  inv_own : own_paths (paths s);
}.

Lemma inv_start : inv start.
Proof.
  split; simpl; try done.
  - intros n e Hin. by apply elem_of_nil in Hin.
  - apply own_paths_empty.
Qed.

Lemma inv_send ev s : inv s -> inv (send ev s).
Proof.
  intros [Hfifo Hev Hit Hpe Hfa Hun Hex Hlog Hdead Hown].
  split; simpl; try done.
  - rewrite puts_app, gets_app, Hfifo. simpl.
    by rewrite app_nil_r, <- (assoc_L (++)).
  - intros tid t Ht Hp. destruct (Hpe tid t Ht Hp) as [?|?]; [by left|].
    right. by apply logged_app.
  - intros tid t e Ht Hf. destruct (Hfa tid t e Ht Hf) as [?|?]; [by left|].
    right. by apply logged_app.
  - intros n e [Hin|Hin]%elem_of_app; [by apply Hlog|].
    by apply list_elem_of_singleton in Hin.
  - intros e He. destruct (Hdead e He) as (ev' & Hin & Hp).
    exists ev'. split; [|done]. apply elem_of_app. by left.
Qed.

Lemma inv_call (rc : registry_call) s :
  inv s ->
  inv (State (apply_call (paths s) rc) (queue s) (events s) (loop s)
         (iteration s) (tasks s) (trace s)).
Proof.
  intros [Hfifo Hev Hit Hpe Hfa Hun Hex Hlog Hdead Hown].
  split; simpl; try done. by apply own_paths_apply_call.
Qed.

Lemma inv_resume s s' : inv s -> resume s = Some s' -> inv s'.
Proof.
  intros [Hfifo Hev Hit Hpe Hfa Hun Hex Hlog Hdead Hown]. unfold resume.
  destruct (loop s) as [|[| |e]|] eqn:Hloop; try done; intros [= <-].
  - (* the gather returned *)
    split; simpl; try done.
    + intros tid t Ht. destruct (Hit tid t Ht) as [Hle _]. split; lia.
    + intros tid t Ht Hp. destruct (Hpe tid t Ht Hp) as [[_ [?|[? ?]]]|?];
        [done|done|by right].
    + intros tid t e Ht Hf. destruct (Hfa tid t e Ht Hf) as [[_ [? ?]]|?];
        [done|by right].
    + intros n e Hin. destruct (Hlog n e Hin) as [Hlt Htid]. split; [lia|done].
  - (* the gather raised: the [except] clause logs *)
    split; simpl; try done.
    + by rewrite puts_app, gets_app, Hfifo, !app_nil_r.
    + intros tid t Ht. destruct (Hit tid t Ht) as [Hle _]. split; lia.
    + intros tid t Ht Hp. right.
      destruct (Hpe tid t Ht Hp) as [[-> _]|?]; [|by apply logged_app].
      exists e. apply elem_of_app. right. left.
    + intros tid t e' Ht Hf. right.
      destruct (Hfa tid t e' Ht Hf) as [[-> _]|?]; [|by apply logged_app].
      exists e. apply elem_of_app. right. left.
    + intros n e' [Hin|Hin]%elem_of_app.
      * destruct (Hlog n e' Hin) as [Hlt Htid]. split; [lia|done].
      * apply list_elem_of_singleton in Hin. injection Hin as -> ->.
        split; [lia|]. by apply Hex.
Qed.

Lemma spawn_lookup (n : nat) (evs : list (coroutine Exn)) (i : nat) t :
  spawn n evs !! i = Some t ->
  t_iteration t = n /\ pending t = true /\ exists c, t_status t = Pending c.
Proof.
  unfold spawn. rewrite list_lookup_fmap.
  destruct (evs !! i) as [c|]; [|done]. simpl. intros [= <-]. simpl. eauto.
Qed.

Lemma tasks_after_dispatch (ts : list task) (n : nat)
    (evs : list (coroutine Exn)) (tid : nat) t :
  (ts ++ spawn n evs) !! tid = Some t ->
  ts !! tid = Some t \/
  (t_iteration t = n /\ pending t = true /\ evs <> []).
Proof.
  intros Ht. apply lookup_app_Some in Ht as [?|[_ Ht]]; [by left|]. right.
  destruct (spawn_lookup _ _ _ _ Ht) as (? & ? & _).
  split; [done|]. split; [done|]. by intros ->.
Qed.

Lemma inv_dispatch ev q s :
  inv s -> loop s = Waiting -> queue s = ev :: q -> inv (dispatch ev q s).
Proof.
  intros [Hfifo Hev Hit Hpe Hfa Hun Hex Hlog Hdead Hown] Hloop Hq.
  assert (Hold : forall tid t, tasks s !! tid = Some t ->
            t_iteration t < iteration s).
  { intros tid t Ht. destruct (Hit tid t Ht) as [Hle Heq].
    destruct (decide (t_iteration t = iteration s)) as [Hn|Hn]; [|lia].
    destruct (Heq Hn) as [o Ho]. congruence. }
  assert (Hpold : forall tid t, tasks s !! tid = Some t -> pending t = true ->
            logged (t_iteration t) (trace s)).
  { intros tid t Ht Hp. destruct (Hpe tid t Ht Hp) as [[_ [?|[? ?]]]|?];
      [congruence|congruence|done]. }
  assert (Hfold : forall tid t e, tasks s !! tid = Some t ->
            t_status t = Failed e -> logged (t_iteration t) (trace s)).
  { intros tid t e Ht Hf. destruct (Hfa tid t e Ht Hf) as [[_ [? ?]]|?];
      [congruence|done]. }
  destruct (process_content (content ev) (attributes ev)) as [e|c] eqn:Hc.
  - rewrite (dispatch_raised _ _ _ _ Hc). split; simpl; try done.
    + rewrite puts_app, gets_app, Hfifo, Hq. simpl.
      by rewrite app_nil_r, <- (assoc_L (++)).
    + intros tid t Ht. pose proof (Hold tid t Ht). split; lia.
    + intros tid t Ht Hp. right. apply logged_app. eauto.
    + intros tid t e' Ht Hf. right. apply logged_app. eauto.
    + intros n e' [Hin|Hin]%elem_of_app; [by apply Hlog|].
      apply elem_of_cons in Hin as [?|Hin]; [done|].
      by apply list_elem_of_singleton in Hin.
    + intros e' [= <-]. exists ev. split; [|done].
      apply elem_of_app. right. left.
  - destruct (dispatch_processed ev q s c Hc) as (paths' & Hsame & ->).
    rewrite (Hev Hloop). simpl.
    set (evs := handler_calls (event_calls (paths s) ev c)).
    split; simpl; try done.
    + rewrite !puts_app, !gets_app, puts_event_calls, gets_event_calls,
        Hfifo, Hq.
      simpl. by rewrite !app_nil_r, <- (assoc_L (++)).
    + intros tid t Ht.
      apply tasks_after_dispatch in Ht as [Ht|(Hn & _ & _)].
      * pose proof (Hold tid t Ht). split; [lia|]. intros ?. lia.
      * split; [lia|]. intros _. eauto.
    + intros tid t Ht Hp.
      apply tasks_after_dispatch in Ht as [Ht|(Hn & _ & Hne)].
      * right. do 2 apply logged_app. eauto.
      * left. split; [done|]. left. by destruct evs.
    + intros tid t e Ht Hf.
      apply tasks_after_dispatch in Ht as [Ht|(_ & Hp & _)].
      * right. do 2 apply logged_app. eauto.
      * unfold pending in Hp. by rewrite Hf in Hp.
    + intros Hunres. destruct evs as [|c0 evs'] eqn:Hevs; [done|].
      exists (length (tasks s)), (Task (iteration s) (Pending c0)).
      split; [|done]. rewrite lookup_app_r by done.
      by rewrite Nat.sub_diag.
    + intros e He. by destruct evs.
    + intros n e [[Hin|Hin]%elem_of_app|Hin]%elem_of_app.
      * destruct (Hlog n e Hin) as [Hlt [tid Htid]]. split; [done|].
        exists tid. by apply lookup_app_l_Some.
      * apply elem_of_cons in Hin as [?|Hin]; [done|].
        by apply list_elem_of_singleton in Hin.
      * by apply log_event_calls in Hin.
    + intros path l. rewrite Hsame. apply Hown.
Qed.

Lemma children_done_true (n : nat) (ts : list task) (tid : nat) t :
  children_done n ts = true -> ts !! tid = Some t -> t_iteration t = n ->
  pending t = false.
Proof.
  unfold children_done. intros Hall Ht Hn.
  apply (proj1 (forallb_forall _ _)) with (x := t) in Hall.
  - rewrite bool_decide_eq_true_2 in Hall by done. by destruct (pending t).
  - apply list_elem_of_In. by apply list_elem_of_lookup_2 with tid.
Qed.

Lemma children_done_false (n : nat) (ts : list task) :
  children_done n ts = false ->
  exists tid t, ts !! tid = Some t /\ t_iteration t = n /\ pending t = true.
Proof.
  unfold children_done. induction ts as [|t ts IH]; [done|]. simpl.
  destruct (bool_decide (t_iteration t = n)) eqn:Hn; simpl.
  - apply bool_decide_eq_true in Hn. destruct (pending t) eqn:Hp; simpl.
    + intros _. by exists 0, t.
    + intros Hrest. destruct (IH Hrest) as (tid & t' & ? & ? & ?).
      by exists (S tid), t'.
  - intros Hrest. destruct (IH Hrest) as (tid & t' & ? & ? & ?).
    by exists (S tid), t'.
Qed.

Lemma step_trace_log (n : nat) e tr (tid : nat) :
  LogError n e ∈ tr ++ [TaskStep tid] -> LogError n e ∈ tr.
Proof.
  intros [?|Hin]%elem_of_app; [done|].
  by apply list_elem_of_singleton in Hin.
Qed.

Lemma inv_suspend s (tid n : nat) (c k : coroutine Exn) :
  inv s -> tasks s !! tid = Some (Task n (Pending c)) ->
  inv (State (paths s) (queue s) (events s) (loop s) (iteration s)
         (<[tid := Task n (Pending k)]> (tasks s))
         (trace s ++ [TaskStep tid])).
Proof.
  intros [Hfifo Hev Hit Hpe Hfa Hun Hex Hlog Hdead Hown] Hts.
  pose proof (lookup_lt_Some _ _ _ Hts) as Hlt.
  split; simpl; try done.
  - by rewrite puts_app, gets_app, Hfifo, !app_nil_r.
  - intros j t [(<- & <- & _)|[Hne Ht]]%list_lookup_insert_Some;
      [|by apply (Hit j)].
    apply (Hit tid _ Hts).
  - intros j t [(<- & <- & _)|[Hne Ht]]%list_lookup_insert_Some Hp.
    + destruct (Hpe tid _ Hts eq_refl) as [?|?]; [by left|].
      right. by apply logged_app.
    + destruct (Hpe j t Ht Hp) as [?|?]; [by left|].
      right. by apply logged_app.
  - intros j t e [(<- & <- & _)|[Hne Ht]]%list_lookup_insert_Some Hf;
      [done|].
    destruct (Hfa j t e Ht Hf) as [?|?]; [by left|].
    right. by apply logged_app.
  - intros Hun'. destruct (Hun Hun') as (j & t & Ht & Hn & Hp).
    destruct (decide (j = tid)) as [->|Hne].
    + exists tid, (Task n (Pending k)).
      rewrite list_lookup_insert_eq by done. split; [done|].
      rewrite Hts in Ht. injection Ht as <-. done.
    + exists j, t. by rewrite list_lookup_insert_ne.
  - intros e He. destruct (Hex e He) as (j & Hj). exists j.
    rewrite list_lookup_insert_ne; [done|]. intros ->. congruence.
  - intros m e Hin%step_trace_log. destruct (Hlog m e Hin) as [? [j Hj]].
    split; [done|]. exists j.
    rewrite list_lookup_insert_ne; [done|]. intros ->. congruence.
  - intros e He. destruct (Hdead e He) as (ev & Hin & Hp). exists ev.
    split; [|done]. apply elem_of_app. by left.
Qed.

Lemma inv_return s (tid n : nat) (c : coroutine Exn) :
  inv s -> tasks s !! tid = Some (Task n (Pending c)) ->
  let ts := <[tid := Task n Finished]> (tasks s) in
  inv (State (paths s) (queue s) (events s)
         (done_callback (Task n Finished) ts (iteration s) (loop s))
         (iteration s) ts (trace s ++ [TaskStep tid])).
Proof.
  intros [Hfifo Hev Hit Hpe Hfa Hun Hex Hlog Hdead Hown] Hts ts.
  pose proof (lookup_lt_Some _ _ _ Hts) as Hlt.
  assert (Hother : forall j t, ts !! j = Some t -> pending t = true ->
            j <> tid /\ tasks s !! j = Some t).
  { intros j t [(<- & <- & _)|[Hne Ht]]%list_lookup_insert_Some Hp; done. }
  assert (Hkeep : forall j t, tasks s !! j = Some t -> j <> tid ->
            ts !! j = Some t).
  { intros j t Ht Hne. unfold ts. by rewrite list_lookup_insert_ne. }
  split; simpl; try done.
  - by rewrite puts_app, gets_app, Hfifo, !app_nil_r.
  - intros Hw. apply Hev. destruct (loop s) as [|[| |e]|e]; try done.
    simpl in Hw. case_bool_decide; [|done].
    by destruct (children_done (iteration s) ts).
  - intros j t Hj.
    assert (Hold : t_iteration t <= iteration s /\
              (t_iteration t = iteration s -> exists o, loop s = Awaiting o)).
    { apply list_lookup_insert_Some in Hj as [(<- & <- & _)|[Hne Ht]].
      - apply (Hit tid _ Hts).
      - by apply (Hit j). }
    destruct Hold as [Hle Hcur]. split; [done|]. intros Heq.
    destruct (Hcur Heq) as [o ->]. destruct o as [| |e]; simpl; eauto.
    case_bool_decide; [|eauto].
    destruct (children_done (iteration s) ts); eauto.
  - intros j t Hj Hp. destruct (Hother j t Hj Hp) as [Hne Ht].
    destruct (Hpe j t Ht Hp) as [[Hn Hl]|?]; [|right; by apply logged_app].
    left. split; [done|]. destruct Hl as [Hl|[e Hl]]; rewrite Hl; simpl.
    + case_bool_decide; [|by left].
      destruct (children_done (iteration s) ts) eqn:Hcd; [|by left].
      by rewrite (children_done_true _ _ _ _ Hcd Hj Hn) in Hp.
    + right. eauto.
  - intros j t e [(<- & <- & _)|[Hne Ht]]%list_lookup_insert_Some Hf;
      [done|].
    destruct (Hfa j t e Ht Hf) as [[Hn [e' Hl]]|?];
      [|right; by apply logged_app].
    left. split; [done|]. rewrite Hl. simpl. eauto.
  - intros Hun'.
    destruct (children_done (iteration s) ts) eqn:Hcd;
      [|by apply children_done_false].
    destruct (loop s) as [|[| |e]|e] eqn:Hloop; try done.
    simpl in Hun'. rewrite Hcd in Hun'.
    case_bool_decide as Hn; [done|].
    destruct (Hun eq_refl) as (j & t & Ht & Hjn & Hp).
    assert (Hne : j <> tid).
    { intros ->. rewrite Hts in Ht. injection Ht as <-. done. }
    exists j, t. split; [by apply Hkeep|done].
  - intros e He.
    assert (Hl : loop s = Awaiting (Exception e)).
    { destruct (loop s) as [|[| |e0]|e0]; try done. simpl in He.
      case_bool_decide; [|done].
      by destruct (children_done (iteration s) ts). }
    destruct (Hex e Hl) as (j & Hj). exists j. apply Hkeep; [done|].
    intros ->. congruence.
  - intros m e Hin%step_trace_log. destruct (Hlog m e Hin) as [? [j Hj]].
    split; [done|]. exists j. apply Hkeep; [done|]. intros ->. congruence.
  - intros e He.
    assert (Hl : loop s = Dead e).
    { destruct (loop s) as [|[| |e0]|e0]; try done. simpl in He.
      case_bool_decide; [|done].
      by destruct (children_done (iteration s) ts). }
    destruct (Hdead e Hl) as (ev & Hin & Hp). exists ev.
    split; [|done]. apply elem_of_app. by left.
Qed.

Lemma inv_raise s (tid n : nat) e :
  inv s -> tasks s !! tid = Some (Task n (Pending (Raise e))) ->
  let ts := <[tid := Task n (Failed e)]> (tasks s) in
  inv (State (paths s) (queue s) (events s)
         (done_callback (Task n (Failed e)) ts (iteration s) (loop s))
         (iteration s) ts (trace s ++ [TaskStep tid])).
Proof.
  intros [Hfifo Hev Hit Hpe Hfa Hun Hex Hlog Hdead Hown] Hts ts.
  pose proof (lookup_lt_Some _ _ _ Hts) as Hlt.
  assert (Hkeep : forall j t, tasks s !! j = Some t -> j <> tid ->
            ts !! j = Some t).
  { intros j t Ht Hne. unfold ts. by rewrite list_lookup_insert_ne. }
  split; simpl; try done.
  - by rewrite puts_app, gets_app, Hfifo, !app_nil_r.
  - intros Hw. apply Hev. destruct (loop s) as [|[| |e0]|e0]; try done.
    simpl in Hw. by case_bool_decide.
  - intros j t Hj.
    assert (Hold : t_iteration t <= iteration s /\
              (t_iteration t = iteration s -> exists o, loop s = Awaiting o)).
    { apply list_lookup_insert_Some in Hj as [(<- & <- & _)|[Hne Ht]].
      - apply (Hit tid _ Hts).
      - by apply (Hit j). }
    destruct Hold as [Hle Hcur]. split; [done|]. intros Heq.
    destruct (Hcur Heq) as [o ->]. destruct o as [| |e0]; simpl; eauto.
    case_bool_decide; eauto.
  - intros j t [(<- & <- & _)|[Hne Ht]]%list_lookup_insert_Some Hp; [done|].
    destruct (Hpe j t Ht Hp) as [[Hn Hl]|?]; [|right; by apply logged_app].
    left. split; [done|]. destruct Hl as [Hl|[e0 Hl]]; rewrite Hl; simpl.
    + case_bool_decide; [right; eauto|by left].
    + right. eauto.
  - intros j t e0 Hj Hf.
    apply list_lookup_insert_Some in Hj as [(<- & <- & _)|[Hne Ht]].
    + destruct (Hpe tid _ Hts eq_refl) as [[Hn Hl]|?];
        [|right; by apply logged_app].
      left. split; [done|]. simpl in Hn.
      destruct Hl as [Hl|[e1 Hl]]; rewrite Hl; simpl.
      * rewrite bool_decide_eq_true_2 by done. eauto.
      * eauto.
    + destruct (Hfa j t e0 Ht Hf) as [[Hn [e' Hl]]|?];
        [|right; by apply logged_app].
      left. split; [done|]. rewrite Hl. simpl. eauto.
  - intros Hun'. destruct (loop s) as [|[| |e0]|e0] eqn:Hloop; try done.
    simpl in Hun'. case_bool_decide as Hn; [done|].
    destruct (Hun eq_refl) as (j & t & Ht & Hjn & Hp).
    assert (Hne : j <> tid).
    { intros ->. rewrite Hts in Ht. injection Ht as <-. done. }
    exists j, t. split; [by apply Hkeep|done].
  - intros e0 He. destruct (loop s) as [|[| |e1]|e1] eqn:Hloop; try done.
    + simpl in He. case_bool_decide as Hn; [|done]. injection He as <-.
      exists tid. unfold ts. rewrite list_lookup_insert_eq by done.
      by rewrite Hn.
    + simpl in He. injection He as <-. destruct (Hex e1 eq_refl) as (j & Hj).
      exists j. apply Hkeep; [done|]. intros ->. congruence.
  - intros m e0 Hin%step_trace_log. destruct (Hlog m e0 Hin) as [? [j Hj]].
    split; [done|]. exists j. apply Hkeep; [done|]. intros ->. congruence.
  - intros e0 He.
    assert (Hl : loop s = Dead e0).
    { destruct (loop s) as [|[| |e1]|e1]; try done. simpl in He.
      by case_bool_decide. }
    destruct (Hdead e0 Hl) as (ev & Hin & Hp). exists ev.
    split; [|done]. apply elem_of_app. by left.
Qed.

Lemma inv_run_task s (tid : nat) s' :
  inv s -> run_task tid s = Some s' -> inv s'.
Proof.
  intros Hinv. unfold run_task.
  destruct (tasks s !! tid) as [[n [c| |e]]|] eqn:Hts; try done.
  destruct c as [|e|k]; intros [= <-].
  - by apply (inv_return s tid n Return).
  - by apply inv_raise.
  - by apply (inv_suspend s tid n (Await k)).
Qed.

Lemma inv_step (ch : choice) s s' : inv s -> step ch s = Some s' -> inv s'.
Proof.
  intros Hinv. destruct ch as [ev|rc| |tid|]; simpl.
  - intros [= <-]. by apply inv_send.
  - intros [= <-]. by apply inv_call.
  - destruct (loop s) eqn:Hloop; try done.
    destruct (queue s) as [|ev q] eqn:Hq; [done|].
    intros [= <-]. by apply inv_dispatch.
  - by apply inv_run_task.
  - by apply inv_resume.
Qed.

Lemma inv_run (cs : list choice) s s' : inv s -> run cs s = Some s' -> inv s'.
Proof.
  revert s. induction cs as [|ch cs IH]; intros s Hinv; simpl.
  - by intros [= <-].
  - destruct (step ch s) as [s1|] eqn:Hstep; [|done].
    apply IH. by apply (inv_step ch s).
Qed.

Lemma reachable_inv s : reachable s -> inv s.
Proof. intros [cs Hrun]. apply (inv_run cs start); [apply inv_start|done]. Qed.

Lemma dispatch_step s s' :
  step DoDispatch s = Some s' ->
  exists ev q, loop s = Waiting /\ queue s = ev :: q /\ s' = dispatch ev q s.
Proof.
  simpl. destruct (loop s); try done.
  destruct (queue s) as [|ev q]; [done|]. intros [= <-]. by exists ev, q.
Qed.

Lemma dispatch_trace ev q s :
  trace (dispatch ev q s)
  = trace s ++ QueueGet ev :: CallProcess (content ev) (attributes ev)
               :: dispatched_calls s ev /\
  events (dispatch ev q s) = events s ++ handler_calls (dispatched_calls s ev) /\
  queue (dispatch ev q s) = q /\
  iteration (dispatch ev q s) = iteration s.
Proof.
  unfold dispatched_calls.
  destruct (process_content (content ev) (attributes ev)) as [e|c] eqn:Hc.
  - rewrite (dispatch_raised _ _ _ _ Hc). simpl. by rewrite app_nil_r.
  - destruct (dispatch_processed ev q s c Hc) as (paths' & _ & ->). simpl.
    by rewrite <- (assoc_L (++)).
Qed.

Lemma dispatch_tasks ev q s :
  tasks (dispatch ev q s)
  = tasks s ++
    match process_content (content ev) (attributes ev) with
    | inl _ => []
    | inr _ =>
        spawn (iteration s) (events s ++ handler_calls (dispatched_calls s ev))
    end.
Proof.
  unfold dispatched_calls.
  destruct (process_content (content ev) (attributes ev)) as [e|c] eqn:Hc.
  - rewrite (dispatch_raised _ _ _ _ Hc). simpl. by rewrite app_nil_r.
  - by destruct (dispatch_processed ev q s c Hc) as (paths' & _ & ->).
Qed.


(** C3, as the code has it: events leave the queue in the order they
    were put, and when the loop takes the next event every handler of an
    earlier event has finished, except handlers of a fan-out whose failure
    was logged (the [gather] raises at the first failure, while the other
    handlers of that event are still running). *)
Theorem events_fifo_and_fanout_awaited s :
  reachable s ->
  puts (trace s) = gets (trace s) ++ queue s /\
  (forall s',
     step DoDispatch s = Some s' ->
     (exists ev q,
        queue s = ev :: q /\ queue s' = q /\
        gets (trace s') = gets (trace s) ++ [ev]) /\
     (forall tid t,
        tasks s !! tid = Some t -> pending t = true ->
        logged (t_iteration t) (trace s))).
Proof.
  intros Hinv%reachable_inv. split; [apply Hinv|].
  intros s' (ev & q & Hloop & Hq & ->)%dispatch_step. split.
  - exists ev, q. destruct (dispatch_trace ev q s) as (-> & _ & -> & _).
    split; [done|]. split; [done|].
    rewrite gets_app. simpl. f_equal. f_equal. unfold dispatched_calls.
    destruct (process_content (content ev) (attributes ev)); [done|].
    apply gets_event_calls.
  - intros tid t Ht Hp.
    destruct (inv_pending s Hinv tid t Ht Hp) as [[_ [?|[? ?]]]|?];
      [congruence|congruence|done].
Qed.

(** C4: a handler that raises ends its own task and nothing else: the
    other tasks, the queue and the registry are as before and every
    pending handler can still be run; the [gather] the loop awaits takes
    the exception, the loop logs it, clears [events] and is back at the
    queue, where the next event can be dispatched.  The loop task ends
    only when the content processor raises, never through a handler.
    Every failed handler belongs to a fan-out whose failure is logged, or
    about to be logged by the awaiting loop; every log record is the
    exception of a handler that failed. *)
Theorem handler_failure_is_isolated s :
  reachable s ->
  (forall tid n e,
     tasks s !! tid = Some (Task n (Pending (Raise e))) ->
     exists s',
       step (DoRun tid) s = Some s' /\
       tasks s' = <[tid := Task n (Failed e)]> (tasks s) /\
       queue s' = queue s /\ paths s' = paths s /\
       (forall e', loop s' = Dead e' -> loop s = Dead e') /\
       (n = iteration s -> loop s = Awaiting Unresolved ->
        loop s' = Awaiting (Exception e))) /\
  (forall tid t,
     tasks s !! tid = Some t -> pending t = true ->
     is_Some (step (DoRun tid) s)) /\
  (forall e,
     loop s = Awaiting (Exception e) ->
     (exists tid, tasks s !! tid = Some (Task (iteration s) (Failed e))) /\
     step DoResume s
     = Some (State (paths s) (queue s) [] Waiting (S (iteration s))
               (tasks s) (trace s ++ [LogError (iteration s) e]))) /\
  (loop s = Waiting ->
     forall ev q, queue s = ev :: q ->
       step DoDispatch s = Some (dispatch ev q s)) /\
  (forall e,
     loop s = Dead e ->
     exists ev,
       QueueGet ev ∈ trace s /\
       process_content (content ev) (attributes ev) = inl e) /\
  (forall tid t e,
     tasks s !! tid = Some t -> t_status t = Failed e ->
     (t_iteration t = iteration s /\
      exists e', loop s = Awaiting (Exception e'))
     \/ logged (t_iteration t) (trace s)) /\
  (forall n e,
     LogError n e ∈ trace s ->
     exists tid, tasks s !! tid = Some (Task n (Failed e))).
Proof.
  intros Hinv%reachable_inv.
  split; [|split; [|split; [|split; [|split; [|split]]]]].
  - intros tid n e Hts. simpl. unfold run_task. rewrite Hts.
    eexists. split; [done|]. simpl. split; [done|]. split; [done|].
    split; [done|]. split.
    + intros e'. destruct (loop s) as [|[| |e0]|e0]; simpl; try done.
      by case_bool_decide.
    + intros -> ->. simpl. by rewrite bool_decide_eq_true_2.
  - intros tid [n [c| |e]] Ht Hp; try done. simpl. unfold run_task.
    rewrite Ht. destruct c; eauto.
  - intros e He. split; [by apply (inv_exception s Hinv)|].
    simpl. unfold resume. by rewrite He.
  - intros Hw ev q Hq. simpl. by rewrite Hw, Hq.
  - apply (inv_dead s Hinv).
  - apply (inv_failed s Hinv).
  - intros n e Hin. by destruct (inv_log s Hinv n e Hin).
Qed.

Lemma match_set_NoDup (p : Path) : NoDup (match_set p).
Proof.
  apply NoDup_alt. intros i j q Hi Hj.
  destruct (Nat.lt_trichotomy i j) as [Hlt|[?|Hlt]]; [|done|].
  - pose proof (match_set_most_specific_first p i j q q Hlt Hi Hj). lia.
  - pose proof (match_set_most_specific_first p j i q q Hlt Hj Hi). lia.
Qed.

Lemma occurrences_filter l (P : Listener -> Prop) `{!forall x, Decision (P x)}
    (ls : list Listener) :
  occurrences l (filter P ls) <= occurrences l ls.
Proof.
  unfold occurrences. induction ls as [|x ls IH]; [done|].
  rewrite (filter_cons P). destruct (decide (P x)).
  - rewrite !filter_cons. destruct (decide (x = l)); simpl; lia.
  - rewrite (filter_cons (fun y => y = l) x).
    destruct (decide (x = l)); simpl; lia.
Qed.

Lemma occurrences_absent l (ls : list Listener) :
  l ∉ ls -> occurrences l ls = 0.
Proof.
  unfold occurrences. induction ls as [|x ls IH]; [done|].
  intros [Hne Hnot]%not_elem_of_cons. rewrite filter_cons.
  rewrite decide_False by congruence. by apply IH.
Qed.

Lemma occurrences_app l (xs ys : list Listener) :
  occurrences l (xs ++ ys) = occurrences l xs + occurrences l ys.
Proof. unfold occurrences. by rewrite filter_app, length_app. Qed.

Lemma invocations_occurrences l calls :
  invocations l calls = occurrences l (handled calls).
Proof. done. Qed.

Lemma invocations_absent (paths : gmap Path (list Listener)) (ps : list Path)
    (ev_path : Path) (g : Guild) (c : string) (a : Attrs) l :
  own_paths paths -> listener_path l ∉ ps ->
  invocations l (path_calls paths ps ev_path g c a) = 0.
Proof.
  intros Hown Hnot. rewrite invocations_occurrences, handled_path_calls.
  induction ps as [|p ps IH]; [done|].
  apply not_elem_of_cons in Hnot as [Hne Hnot].
  rewrite bind_cons, occurrences_app, (IH Hnot), Nat.add_0_r.
  apply occurrences_absent. intros [_ Hin]%list_elem_of_filter.
  apply Hown in Hin. congruence.
Qed.

Lemma invocations_bound (paths : gmap Path (list Listener)) (ps : list Path)
    (ev_path : Path) (g : Guild) (c : string) (a : Attrs) l :
  own_paths paths -> NoDup ps ->
  invocations l (path_calls paths ps ev_path g c a)
  <= occurrences l (bucket paths (listener_path l)).
Proof.
  intros Hown Hnd. rewrite invocations_occurrences, handled_path_calls.
  induction Hnd as [|p ps Hp Hnd IH]; [unfold occurrences; simpl; lia|].
  rewrite bind_cons, occurrences_app.
  destruct (decide (listener_path l = p)) as [<-|Hne].
  - pose proof (invocations_absent paths ps ev_path g c a l Hown Hp) as Hz.
    rewrite invocations_occurrences, handled_path_calls in Hz.
    rewrite Hz, Nat.add_0_r. apply occurrences_filter.
  - rewrite (occurrences_absent l (filter _ (bucket paths p))); [done|].
    intros [_ Hin]%list_elem_of_filter. apply Hown in Hin. congruence.
Qed.

(** C8, as the code has it: the coroutines a dispatch hands to [gather]
    are those its own calls of [handle] made, nothing is left in [events]
    from an earlier event, whether that event's fan-out raised or not,
    and [handle] of a listener is called at most once for each entry the
    listener has in the bucket of its path (so at most once when it is
    registered once). *)
Theorem handle_called_once_per_registration s s' :
  reachable s -> step DoDispatch s = Some s' ->
  events s = [] /\
  exists ev q calls,
    queue s = ev :: q /\
    trace s' = trace s ++ QueueGet ev
                 :: CallProcess (content ev) (attributes ev) :: calls /\
    events s' = handler_calls calls /\
    (forall tid t,
       tasks s' !! tid = Some t -> t_iteration t = iteration s' ->
       exists c, t_status t = Pending c /\ c ∈ handler_calls calls) /\
    forall l,
      invocations l calls
      <= occurrences l (bucket (paths s) (listener_path l)) /\
      (occurrences l (bucket (paths s) (listener_path l)) <= 1 ->
       invocations l calls <= 1).
Proof.
  intros Hinv%reachable_inv (ev & q & Hloop & Hq & ->)%dispatch_step.
  pose proof (inv_events s Hinv Hloop) as Hev. split; [done|].
  exists ev, q, (dispatched_calls s ev).
  destruct (dispatch_trace ev q s) as (Htr & Hevs & _ & Hit).
  rewrite Hev in Hevs. simpl in Hevs.
  split; [done|]. split; [done|]. split; [done|]. split.
  - intros tid t Ht Hn. rewrite Hit in Hn.
    rewrite dispatch_tasks, Hev in Ht.
    apply lookup_app_Some in Ht as [Ht|[_ Ht]].
    + destruct (inv_iteration s Hinv tid t Ht) as [_ Hcur].
      destruct (Hcur Hn) as [o Ho]. congruence.
    + destruct (process_content (content ev) (attributes ev));
        [by rewrite lookup_nil in Ht|].
      simpl in Ht. unfold spawn in Ht. rewrite list_lookup_fmap in Ht.
      destruct (handler_calls (dispatched_calls s ev) !! _) as [c|] eqn:Hc;
        [|done].
      injection Ht as <-. exists c. split; [done|].
      by apply list_elem_of_lookup_2 in Hc.
  - intros l.
    assert (Hb : invocations l (dispatched_calls s ev)
                 <= occurrences l (bucket (paths s) (listener_path l))).
    { unfold dispatched_calls.
      destruct (process_content (content ev) (attributes ev));
        [unfold invocations; simpl; lia|].
      apply invocations_bound; [apply Hinv|apply match_set_NoDup]. }
    split; [done|lia].
Qed.

(** C1: when the loop dispatches an event, the listeners it examines
    are those of the buckets of the event's path and of its ancestors,
    the event's own path first and then the ancestors from the nearest
    to the farthest, each bucket in registration order.  A listener is
    handed the event exactly when it is registered at the event's path
    or at an ancestor of it and its check returns true: its [handle] is
    called with the event's own path and the coroutine becomes a task of
    this pass.  A listener registered at a path strictly below the
    event's is neither examined nor handed the event. *)
Theorem dispatch_examines_path_and_ancestors s s' :
  reachable s -> step DoDispatch s = Some s' ->
  exists ev q calls,
    queue s = ev :: q /\
    trace s' = trace s ++ QueueGet ev
                 :: CallProcess (content ev) (attributes ev) :: calls /\
    events s' = handler_calls calls /\
    match process_content (content ev) (attributes ev) with
    | inl _ => calls = [] /\ tasks s' = tasks s
    | inr c =>
        let p := event_path ev in
        let g := guild ev in
        let a := attributes ev in
        tasks s' = tasks s ++ spawn (iteration s) (handler_calls calls) /\
        checked calls = match_set p ≫= bucket (paths s) /\
        handled calls
        = (match_set p ≫= fun x : Path =>
             filter (fun l => check l x g c a = true) (bucket (paths s) x)) /\
        (forall x : Path, x ∈ match_set p <-> x = p \/ ancestor x p) /\
        (forall i j qi qj,
           i < j -> match_set p !! i = Some qi -> match_set p !! j = Some qj ->
           depth qj < depth qi) /\
        (forall l,
           l ∈ checked calls <->
           (listener_path l = p \/ ancestor (listener_path l) p) /\
           l ∈ bucket (paths s) (listener_path l)) /\
        (forall l,
           l ∈ handled calls <->
           (listener_path l = p \/ ancestor (listener_path l) p) /\
           l ∈ bucket (paths s) (listener_path l) /\
           check l (listener_path l) g c a = true) /\
        (forall l,
           l ∈ handled calls ->
           CallHandle l p g c a ∈ calls /\
           handle l p g c a ∈ handler_calls calls) /\
        (forall l,
           ancestor p (listener_path l) ->
           (l ∉ checked calls) /\ (l ∉ handled calls))
    end.
Proof.
  intros Hinv%reachable_inv (ev & q & Hloop & Hq & ->)%dispatch_step.
  exists ev, q, (dispatched_calls s ev).
  destruct (dispatch_trace ev q s) as (Htr & Hevs & _ & _).
  pose proof (dispatch_tasks ev q s) as Hts.
  rewrite (inv_events s Hinv Hloop) in Hevs, Hts. simpl in Hevs, Hts.
  pose proof (inv_own s Hinv) as Hown.
  split; [done|]. split; [done|]. split; [done|].
  unfold dispatched_calls in *.
  destruct (process_content (content ev) (attributes ev)) as [e|c] eqn:Hc.
  { split; [done|]. by rewrite app_nil_r in Hts. }
  unfold event_calls in *. cbv zeta.
  set (p := event_path ev) in *. set (g := guild ev) in *.
  set (a := attributes ev) in *.
  assert (Hchk : forall l,
            l ∈ checked (path_calls (paths s) (match_set p) p g c a) <->
            (listener_path l = p \/ ancestor (listener_path l) p) /\
            l ∈ bucket (paths s) (listener_path l)).
  { intros l. rewrite checked_elem. split.
    - intros (q' & g' & c' & a' & Ho).
      apply elem_of_path_calls in Ho as (q0 & l0 & Hq0 & Hl0 & [Ho|[Ho _]]);
        [|done].
      injection Ho as -> -> _ _ _. rewrite (Hown _ _ Hl0).
      split; [by apply match_set_spec|done].
    - intros [Hp Hl]. exists (listener_path l), g, c, a.
      apply elem_of_path_calls. exists (listener_path l), l.
      split; [by apply match_set_spec|]. split; [done|]. by left. }
  assert (Hhdl : forall l,
            l ∈ handled (path_calls (paths s) (match_set p) p g c a) <->
            (listener_path l = p \/ ancestor (listener_path l) p) /\
            l ∈ bucket (paths s) (listener_path l) /\
            check l (listener_path l) g c a = true).
  { intros l. rewrite handled_elem. split.
    - intros (q' & g' & c' & a' & Ho).
      apply elem_of_path_calls in Ho as (q0 & l0 & Hq0 & Hl0 & [Ho|[Ho Hck]]);
        [done|].
      injection Ho as -> _ _ _ _. rewrite (Hown _ _ Hl0).
      split; [by apply match_set_spec|done].
    - intros (Hp & Hl & Hck). exists p, g, c, a.
      apply elem_of_path_calls. exists (listener_path l), l.
      split; [by apply match_set_spec|]. split; [done|]. by right. }
  split; [done|]. split; [apply checked_path_calls|].
  split; [apply handled_path_calls|]. split; [apply match_set_spec|].
  split; [apply match_set_most_specific_first|].
  split; [done|]. split; [done|]. split.
  - intros l (Hp & Hl & Hck)%Hhdl.
    assert (Hin : CallHandle l p g c a
                  ∈ path_calls (paths s) (match_set p) p g c a).
    { apply elem_of_path_calls. exists (listener_path l), l.
      split; [by apply match_set_spec|]. split; [done|]. by right. }
    split; [done|]. by apply handler_calls_elem.
  - intros l Hbelow.
    assert (Hno : ~ (listener_path l = p \/ ancestor (listener_path l) p)).
    { intros [Heq|Hanc].
      - rewrite Heq in Hbelow. by apply ancestor_irrefl in Hbelow.
      - by apply ancestor_asym in Hanc. }
    split.
    + intros [? _]%Hchk. done.
    + intros [? _]%Hhdl. done.
Qed.

End loop_facts.

(** ** The model at work *)

Section demo_facts.
Import PurePath Router Demo.

Lemma registered_own_paths : own_paths registered.
Proof. apply own_paths_apply_calls, own_paths_empty. Qed.

Lemma overtaken_reachable : reachable overtaken.
Proof. exists overtaking. vm_compute. reflexivity. Qed.

Example registered_buckets :
  bucket registered root_a = [audit] /\
  bucket registered a_b = [] /\
  bucket registered a_b_c = [flaky; slow; quiet] /\
  bucket registered a_b_c_d = [deep].
Proof. vm_compute. done. Qed.

Example parents_of_a_b_c :
  parents a_b_c = [a_b; root_a; mk "/" []] /\ parents (mk "/" []) = [] /\
  parents (mk EmptyString ["a"; "b"]) = [mk EmptyString ["a"]; mk EmptyString []].
Proof. vm_compute. done. Qed.

Lemma raising_reachable : reachable raising.
Proof. exists (take 8 overtaking). vm_compute. reflexivity. Qed.

Lemma registered_twice_reachable : reachable registered_twice.
Proof. exists twice. vm_compute. reflexivity. Qed.

(** The theorem of C1 on the second event of [overtaken], sent on
    [/a/b/c] with the five listeners registered. *)
Lemma dispatch_examines_witness :
  reachable overtaken /\
  step DoDispatch overtaken = Some (dispatch e2 [] overtaken) /\
  exists calls,
    trace (dispatch e2 [] overtaken)
    = trace overtaken ++ QueueGet e2 :: CallProcess "second" tt :: calls /\
    checked calls = match_set a_b_c ≫= bucket (paths overtaken) /\
    (audit ∈ handled calls) /\ (flaky ∈ handled calls) /\
    (quiet ∉ handled calls) /\ (deep ∉ checked calls).
Proof.
  split; [exact overtaken_reachable|].
  assert (Hstep : step DoDispatch overtaken = Some (dispatch e2 [] overtaken))
    by (vm_compute; reflexivity).
  split; [exact Hstep|].
  destruct (dispatch_examines_path_and_ancestors overtaken
              (dispatch e2 [] overtaken) overtaken_reachable Hstep)
    as (ev & q & calls & Hq & Htr & _ & Hrest).
  assert (Hev : ev = e2)
    by (vm_compute in Hq; injection Hq as <- _; reflexivity).
  subst ev. change (process_content (content e2) (attributes e2))
    with (inr "<second>" : string + string) in Hrest.
  destruct Hrest as (_ & Hchecked & _ & _ & _ & _ & Hhandled & _ & Hbelow).
  exists calls. split; [exact Htr|]. split; [exact Hchecked|].
  split; [|split; [|split]].
  - apply Hhandled. split.
    + right. split; [reflexivity|]. exists ["b"; "c"].
      split; [discriminate|reflexivity].
    + split; [vm_compute; left|reflexivity].
  - apply Hhandled. split; [by left|].
    split; [vm_compute; left|reflexivity].
  - intros (_ & _ & Hck)%Hhandled. discriminate Hck.
  - apply (Hbelow deep). split; [reflexivity|].
    exists ["d"]. split; [discriminate|reflexivity].
Defined.

Example dispatch_on_a_b_c :
  (scan_paths (match_set a_b_c) a_b_c tt "first" tt registered [] []).2
  = [CallCheck flaky a_b_c tt "first" tt; CallHandle flaky a_b_c tt "first" tt;
     CallCheck slow a_b_c tt "first" tt; CallHandle slow a_b_c tt "first" tt;
     CallCheck quiet a_b_c tt "first" tt;
     CallCheck audit root_a tt "first" tt; CallHandle audit a_b_c tt "first" tt].
Proof. vm_compute. reflexivity. Qed.


(** C3 as it is written fails: in [overtaken] the handler of [flaky] has
    failed on the first event and the loop is back at the queue, so the
    second event is dispatched while the handler of [slow] for the first
    event is still suspended. *)
Lemma next_event_overtakes_failed_fanout :
  run overtaking start = Some overtaken /\
  (exists s', step DoDispatch overtaken = Some s' /\
              gets (trace s') = [e1; e2] /\
              CallProcess "second" tt ∈ trace s') /\
  tasks overtaken !! 1 = Some (Task 0 (Pending (Await Return))) /\
  ~ (forall tid t, tasks overtaken !! tid = Some t -> pending t = false).
Proof.
  split; [vm_compute; reflexivity|]. split.
  - eexists. split; [vm_compute; reflexivity|]. split; [reflexivity|].
    apply list_elem_of_lookup. by exists 16.
  - split; [vm_compute; reflexivity|].
    intros Hall. specialize (Hall 1 (Task 0 (Pending (Await Return)))).
    discriminate Hall. vm_compute. reflexivity.
Qed.

(** The theorem of C3 on [overtaken]. *)
Lemma fifo_and_fanout_witness :
  reachable overtaken /\
  puts (trace overtaken) = gets (trace overtaken) ++ queue overtaken /\
  (forall tid t,
     tasks overtaken !! tid = Some t -> pending t = true ->
     logged (t_iteration t) (trace overtaken)).
Proof.
  split; [exact overtaken_reachable|].
  destruct (events_fifo_and_fanout_awaited overtaken overtaken_reachable)
    as [Hfifo Hnext].
  split; [exact Hfifo|].
  apply (Hnext (dispatch e2 [] overtaken)). vm_compute. reflexivity.
Defined.

(** The theorem of C4 on [raising]: the handler of [flaky] raises, the
    loop logs and takes the second event. *)
Lemma handler_failure_witness :
  reachable raising /\
  tasks raising !! 0 = Some (Task 0 (Pending (Raise "boom"))) /\
  exists s',
    step (DoRun 0) raising = Some s' /\
    tasks s' = <[0 := Task 0 (Failed "boom")]> (tasks raising) /\
    loop s' = Awaiting (Exception "boom").
Proof.
  split; [exact raising_reachable|].
  split; [vm_compute; reflexivity|].
  destruct (proj1 (handler_failure_is_isolated raising raising_reachable)
              0 0 "boom")
    as (s' & Hstep & Htasks & _ & _ & _ & Hloop);
    [vm_compute; reflexivity|].
  exists s'. split; [exact Hstep|]. split; [exact Htasks|].
  apply Hloop; vm_compute; reflexivity.
Defined.

(** C5 on the code: with [audit] registered at [/a] and an event on
    [/a/b/c], line 78 calls [audit.check] with [/a], the path of the
    bucket, while line 80 calls [audit.handle] with [/a/b/c], the path of
    the event. *)
Theorem check_is_passed_the_bucket_path :
  run below start = Some dispatched_below /\
  trace dispatched_below
  = [QueuePut e1; QueueGet e1; CallProcess "first" tt;
     CallCheck audit root_a tt "<first>" tt;
     CallHandle audit a_b_c tt "<first>" tt] /\
  event_path e1 = a_b_c /\ root_a <> event_path e1.
Proof. vm_compute. repeat split; done. Qed.

(** C8 as it is written fails: [audit] registered twice is handed one
    event twice. *)
Lemma listener_registered_twice_runs_twice :
  run twice start = Some registered_twice /\
  bucket (paths registered_twice) root_a = [audit; audit] /\
  exists s',
    step DoDispatch registered_twice = Some s' /\
    handled (trace s') = [audit; audit] /\
    invocations audit (trace s') = 2 /\
    tasks s' = [Task 0 (Pending Return); Task 0 (Pending Return)] /\
    ~ (forall l, invocations l (trace s') <= 1).
Proof.
  split; [vm_compute; reflexivity|]. split; [vm_compute; reflexivity|].
  eexists. split; [vm_compute; reflexivity|].
  split; [vm_compute; reflexivity|]. split; [vm_compute; reflexivity|].
  split; [reflexivity|].
  intros Hall. specialize (Hall audit). vm_compute in Hall. lia.
Qed.

(** The theorem of C8 on the second event of [overtaken], whose
    predecessor's fan-out raised. *)
Lemma handle_called_once_witness :
  reachable overtaken /\
  step DoDispatch overtaken = Some (dispatch e2 [] overtaken) /\
  events overtaken = [] /\
  forall l, invocations l (dispatched_calls overtaken e2) <= 1.
Proof.
  split; [exact overtaken_reachable|].
  assert (Hstep : step DoDispatch overtaken = Some (dispatch e2 [] overtaken))
    by (vm_compute; reflexivity).
  split; [exact Hstep|].
  destruct (handle_called_once_per_registration overtaken
              (dispatch e2 [] overtaken) overtaken_reachable Hstep)
    as (Hev & ev & q & calls & Hq & Htr & _ & _ & Hbound).
  split; [exact Hev|]. intros l.
  assert (Hev2 : ev = e2)
    by (vm_compute in Hq; injection Hq as <- _; reflexivity).
  subst ev.
  assert (Hcalls : calls = dispatched_calls overtaken e2).
  { destruct (dispatch_trace e2 [] overtaken) as (Htr' & _).
    rewrite Htr' in Htr. apply app_inv_head in Htr. congruence. }
  subst calls. apply (Hbound l). destruct l; vm_compute; lia.
Defined.

(** The theorem of C9 on [hook_calls]: [broken] raises and the hook
    registered after it still runs. *)
Lemma run_hooks_witness :
  "on_guild_join" ∈ Hooks.HOOK_NAMES /\
  exists r,
    Hooks.run_hooks "on_guild_join" tt
      (Hooks.register_all hook_calls Hooks._hooks) 0 = inr r /\
    Hooks.called r = Hooks.registered_under "on_guild_join" hook_calls.
Proof.
  assert (Hin : "on_guild_join" ∈ Hooks.HOOK_NAMES) by left.
  split; [exact Hin|].
  destruct (proj1 (run_hooks_calls_every_hook hook_calls "on_guild_join" tt 0
                     Hin))
    as (r & Hrun & Hcalled & _).
  exists r. split; [exact Hrun|exact Hcalled].
Defined.

Example run_hooks_on_guild_join :
  Hooks.run_hooks "on_guild_join" tt
    (Hooks.register_all hook_calls Hooks._hooks) 0
  = inr (Hooks.HookRun 3 [(broken, "no table")]
           [count_up; broken; count_twice]) /\
  Hooks.run_hooks "on_guild_ban" tt
    (Hooks.register_all hook_calls Hooks._hooks) 0
  = inl (Hooks.KeyError "on_guild_ban").
Proof. vm_compute. done. Qed.

Example register_hook_bad_name :
  Hooks.register_hook "on_guild_ban" count_up
    (Hooks._hooks : gmap string (list hook))
  = (Some (Hooks.ValueError "on_guild_ban"), Hooks._hooks).
Proof. vm_compute. done. Qed.

Example unregister_twice :
  (unregister registered slow).1 = None /\
  bucket (unregister registered slow).2 a_b_c = [flaky; quiet] /\
  (unregister (unregister registered slow).2 slow).1 = Some ValueError.
Proof. vm_compute. done. Qed.

Example get_by_attributes :
  (get registered a_b_c [("channel", "general")]).1 = Some slow /\
  (get registered a_b_c [("channel", "general"); ("kind", "dm")]).1 = Some slow /\
  (get registered a_b_c [("channel", "mod-log")]).1 = None /\
  (get registered a_b_c []).1 = Some flaky /\
  (get registered a_b [("channel", "mod-log")]).1 = None /\
  (get registered root_a [("channel", "mod-log")]).1 = Some audit.
Proof. vm_compute. done. Qed.

End demo_facts.

(** ** More on the registry: how the calls compose *)

Section registry_composition.
Import PurePath Router.
Context {Listener Guild Attrs Value Exn : Type}.
Context `{!Journal Listener Guild Attrs Value Exn}.
Context `{!EqDecision Listener, !EqDecision Value}.

Implicit Types (paths : gmap Path (list Listener)) (l : Listener).

Lemma get_fst paths (p : Path) (attrs : list (string * Value)) :
  (get paths p attrs).1 = first_match (bucket paths p) attrs.
Proof.
  unfold get. pose proof (getitem_fst paths p) as Hf.
  destruct (paths_getitem paths p). simpl in *. by subst.
Qed.

Lemma first_match_app (xs ys : list Listener) (attrs : list (string * Value)) :
  first_match (xs ++ ys) attrs
  = match first_match xs attrs with
    | Some x => Some x
    | None => first_match ys attrs
    end.
Proof.
  induction xs as [|x xs IH]; [done|]. simpl.
  by destruct (attrs_match x attrs).
Qed.

(** X1: [register] then [get]: a listener registered earlier at the path and
    matching the attributes keeps being the answer; the new listener is
    the answer only when it is registered at the path asked for, matches,
    and nothing matched before. *)
Theorem get_after_register paths l (p : Path) (attrs : list (string * Value)) :
  (get (register paths l) p attrs).1
  = match (get paths p attrs).1 with
    | Some x => Some x
    | None =>
        if decide (listener_path l = p) then
          if attrs_match l attrs then Some l else None
        else None
    end.
Proof.
  rewrite !get_fst, bucket_register. case_decide as Hp.
  - rewrite first_match_app. simpl.
    by destruct (first_match (bucket paths p) attrs).
  - by destruct (first_match (bucket paths p) attrs).
Qed.

Lemma list_remove_first_app_r l (xs ys : list Listener) :
  l ∉ xs ->
  list_remove_first l (xs ++ l :: ys) = Some (xs ++ ys).
Proof.
  intros Hnot. apply list_remove_first_Some. by exists xs, ys.
Qed.

(** X2: [register] then [unregister] of the same listener always succeeds.
    It restores every bucket when the listener was not in its bucket
    before; when it was, the older entry is the one that goes and the
    new one stays at the end. *)
Theorem unregister_after_register paths l :
  (unregister (register paths l) l).1 = None /\
  (l ∉ bucket paths (listener_path l) ->
   forall q, bucket (unregister (register paths l) l).2 q = bucket paths q) /\
  (forall pre post,
     bucket paths (listener_path l) = pre ++ l :: post -> l ∉ pre ->
     bucket (unregister (register paths l) l).2 (listener_path l)
     = pre ++ post ++ [l]).
Proof.
  split; [|split].
  - rewrite unregister_fst, bucket_register, decide_True by done.
    destruct (list_remove_first l (bucket paths (listener_path l) ++ [l]))
      eqn:Hr; [done|].
    apply list_remove_first_None in Hr. destruct Hr.
    apply elem_of_app. right. left.
  - intros Hnot q. rewrite bucket_unregister, bucket_register.
    case_decide as Hq; [|done]. subst q.
    by rewrite (list_remove_first_app_r l _ [] Hnot), app_nil_r.
  - intros pre post Hb Hpre.
    rewrite bucket_unregister, decide_True, bucket_register, decide_True, Hb
      by done.
    rewrite <- (assoc_L (++)). simpl.
    by rewrite (list_remove_first_app_r l pre (post ++ [l]) Hpre).
Qed.

Lemma dom_getitem paths (p : Path) :
  dom (paths_getitem paths p).2 = {[p]} ∪ dom paths.
Proof.
  unfold paths_getitem. destruct (paths !! p) as [b|] eqn:Hp; simpl.
  - apply elem_of_dom_2 in Hp. apply set_eq. intros x.
    rewrite elem_of_union, elem_of_singleton. split; [by right|].
    by intros [->|?].
  - by rewrite dom_insert_L.
Qed.

(** X3: No call removes a key of [self.paths]: asking for a path, also
    through [get] or a failing [unregister], creates its key, and
    unregistering the last listener of a path leaves the key with an
    empty list. *)
Theorem registry_keys_only_grow paths l (p : Path)
    (attrs : list (string * Value)) :
  dom (get paths p attrs).2 = {[p]} ∪ dom paths /\
  dom (register paths l) = {[listener_path l]} ∪ dom paths /\
  dom (unregister paths l).2 = {[listener_path l]} ∪ dom paths /\
  (bucket paths (listener_path l) = [l] ->
   (unregister paths l).2 !! listener_path l = Some []).
Proof.
  split; [|split; [|split]].
  - unfold get. pose proof (dom_getitem paths p) as Hd.
    by destruct (paths_getitem paths p).
  - unfold register. pose proof (dom_getitem paths (listener_path l)) as Hd.
    destruct (paths_getitem paths (listener_path l)) as [b paths'].
    simpl in Hd. by rewrite dom_insert_L, Hd, (assoc_L (∪)), (idemp_L (∪)).
  - unfold unregister. pose proof (dom_getitem paths (listener_path l)) as Hd.
    destruct (paths_getitem paths (listener_path l)) as [b paths'].
    simpl in Hd. destruct (list_remove_first l b); simpl; [|done].
    by rewrite dom_insert_L, Hd, (assoc_L (∪)), (idemp_L (∪)).
  - intros Hb. unfold unregister.
    pose proof (getitem_fst paths (listener_path l)) as Hf.
    destruct (paths_getitem paths (listener_path l)) as [b paths'].
    simpl in Hf. subst b. rewrite Hb. simpl. rewrite decide_True by done.
    simpl. by rewrite lookup_insert_eq.
Qed.

Lemma bucket_apply_call_registered paths (c : registry_call) (q : Path) l
    (cs : list registry_call) :
  (forall q' x, x ∈ bucket paths q' -> CallRegister x ∈ cs) ->
  l ∈ bucket (apply_call paths c) q -> CallRegister l ∈ cs ++ [c].
Proof.
  intros Hall. destruct c as [r|u|p attrs]; simpl.
  - rewrite bucket_register. case_decide as Hp.
    + intros [Hin| ->%list_elem_of_singleton]%elem_of_app;
        apply elem_of_app; [left; by apply (Hall q)|right; left].
    + intros Hin. apply elem_of_app. left. by apply (Hall q).
  - rewrite bucket_unregister. intros Hin. apply elem_of_app. left.
    apply (Hall q). case_decide as Hp; [|done].
    destruct (list_remove_first u (bucket paths q)) as [b'|] eqn:Hr;
      simpl in Hin; [|done].
    apply list_remove_first_Some in Hr as (pre & post & -> & _ & ->).
    apply elem_of_app in Hin as [?|?]; apply elem_of_app; [by left|].
    right. by right.
  - rewrite bucket_get. intros Hin. apply elem_of_app. left.
    by apply (Hall q).
Qed.

Lemma bucket_apply_calls_registered (cs done : list registry_call) paths
    (q : Path) l :
  (forall q' x, x ∈ bucket paths q' -> CallRegister x ∈ done) ->
  l ∈ bucket (apply_calls cs paths) q -> CallRegister l ∈ done ++ cs.
Proof.
  revert done paths. induction cs as [|c cs IH]; intros done paths Hall; simpl.
  - rewrite app_nil_r. apply Hall.
  - intros Hin. rewrite (assoc_L (++) done [c] cs : done ++ c :: cs = _).
    apply (IH (done ++ [c]) (apply_call paths c)); [|done].
    intros q' x. by apply bucket_apply_call_registered.
Qed.

(** X4: Whatever the history of calls on a new router, [get] answers only
    with a listener that was registered, whose own path is the path asked
    for and that has every attribute asked for. *)
Theorem get_returns_registered_listener (cs : list registry_call) (p : Path)
    (attrs : list (string * Value)) l :
  (get (apply_calls cs ∅) p attrs).1 = Some l ->
  CallRegister l ∈ cs /\ listener_path l = p /\ matches l attrs.
Proof.
  rewrite get_fst. intros (pre & post & Hb & Hm & _)%first_match_Some.
  assert (Hin : l ∈ bucket (apply_calls cs ∅) p).
  { rewrite Hb. apply elem_of_app. right. left. }
  split; [|split; [|done]].
  - apply (bucket_apply_calls_registered cs [] ∅ p l); [|done].
    intros q' x. rewrite bucket_empty. by intros ?%elem_of_nil.
  - by apply (own_paths_apply_calls cs ∅ own_paths_empty).
Qed.

(** X5: The order in which the keyword arguments of [get] are written, and
    writing one of them twice, make no difference to its answer. *)
Theorem get_ignores_attribute_order paths (p : Path)
    (a1 a2 : list (string * Value)) :
  (forall x, x ∈ a1 <-> x ∈ a2) ->
  get paths p a1 = get paths p a2.
Proof.
  intros Hsame.
  assert (Hm : forall l, attrs_match l a1 = attrs_match l a2).
  { intros l. destruct (attrs_match l a1) eqn:H1.
    - symmetry. apply attrs_match_spec. apply attrs_match_spec in H1.
      intros attr value Hin. apply H1. by apply Hsame.
    - destruct (attrs_match l a2) eqn:H2; [|done].
      apply attrs_match_spec in H2.
      assert (attrs_match l a1 = true); [|congruence].
      apply attrs_match_spec. intros attr value Hin. apply H2.
      by apply Hsame. }
  unfold get. destruct (paths_getitem paths p) as [b paths']. f_equal.
  induction b as [|x b IH]; [done|]. simpl. by rewrite Hm, IH.
Qed.

End registry_composition.

(** ** More on the dispatch loop *)

Section loop_behaviour.
Import PurePath Router.
Context {Listener Guild Attrs Value Exn : Type}.
Context `{!Journal Listener Guild Attrs Value Exn}.
Context `{!EqDecision Listener, !EqDecision Value}.

Local Abbreviation obs := (@Router.obs Listener Guild Attrs Exn).
Local Abbreviation event := (@Router.event Guild Attrs).
Local Abbreviation state := (@Router.state Listener Guild Attrs Exn).
Local Abbreviation task := (@Router.task Exn).
Local Abbreviation choice := (@Router.choice Listener Guild Attrs Value).

Implicit Types (s : state) (ev : event) (q : list event) (t : task).
Implicit Types (tr calls : list obs) (l : Listener) (e : Exn).
Implicit Types (paths : gmap Path (list Listener)).

(** The passes of the [while] loop that wrote an error record. *)
Definition log_passes (tr : list obs) : list nat :=
  omap (fun o => match o with LogError n _ => Some n | _ => None end) tr.

(** The listeners of the buckets of [ps] whose check accepts. *)
Definition accepted paths (ps : list Path) (g : Guild) (c : string)
    (a : Attrs) : list Listener :=
  ps ≫= fun p => filter (fun l => check l p g c a = true) (bucket paths p).

Lemma run_invariant (P : state -> Prop) :
  (forall ch s s', inv s -> P s -> step ch s = Some s' -> P s') ->
  forall cs s s', inv s -> P s -> run cs s = Some s' -> P s'.
Proof.
  intros Hstep cs. induction cs as [|ch cs IH]; intros s s' Hinv HP; simpl.
  - by intros [= <-].
  - destruct (step ch s) as [s1|] eqn:Hs; [|done].
    apply IH; [by apply (inv_step ch s)|by apply (Hstep ch s)].
Qed.

Lemma reachable_invariant (P : state -> Prop) :
  P start ->
  (forall ch s s', inv s -> P s -> step ch s = Some s' -> P s') ->
  forall s, reachable s -> P s.
Proof.
  intros H0 Hstep s [cs Hrun].
  by apply (run_invariant P Hstep cs start s inv_start H0).
Qed.

Lemma handler_calls_bucket (ls : list Listener) (p ev_path : Path) (g : Guild)
    (c : string) (a : Attrs) :
  handler_calls (bucket_calls ls p ev_path g c a)
  = (fun l => handle l ev_path g c a)
      <$> filter (fun l => check l p g c a = true) ls.
Proof.
  induction ls as [|l ls IH]; [done|].
  rewrite bucket_calls_cons, handler_calls_app, IH, filter_cons.
  destruct (check l p g c a); done.
Qed.

Lemma handler_calls_paths paths (ps : list Path) (ev_path : Path) (g : Guild)
    (c : string) (a : Attrs) :
  handler_calls (path_calls paths ps ev_path g c a)
  = (fun l => handle l ev_path g c a) <$> accepted paths ps g c a.
Proof.
  unfold accepted. induction ps as [|p ps IH]; [done|].
  by rewrite path_calls_cons, handler_calls_app, IH, handler_calls_bucket,
    bind_cons, fmap_app.
Qed.

Lemma dispatch_events ev q s :
  events (dispatch ev q s)
  = events s ++
    match process_content (content ev) (attributes ev) with
    | inr c =>
        (fun l => handle l (event_path ev) (guild ev) c (attributes ev))
          <$> accepted (paths s) (match_set (event_path ev)) (guild ev) c
                (attributes ev)
    | inl _ => []
    end.
Proof.
  destruct (dispatch_trace ev q s) as (_ & -> & _). f_equal.
  unfold dispatched_calls.
  destruct (process_content (content ev) (attributes ev)); [done|].
  apply handler_calls_paths.
Qed.

(** X6: What lines 76-81 add to [events]: one coroutine for each listener
    whose check accepts, those at the event's own path first, in the
    order they were registered, then those of each ancestor path from
    the nearest up; each coroutine is [handle] applied to the event's own
    path, whatever path the listener is registered at.  Nothing is added
    when the content processor raises. *)
Theorem handlers_collected_in_order ev q s :
  events (dispatch ev q s)
  = events s ++
    match process_content (content ev) (attributes ev) with
    | inr c =>
        (fun l => handle l (event_path ev) (guild ev) c (attributes ev))
          <$> accepted (paths s) (match_set (event_path ev)) (guild ev) c
                (attributes ev)
    | inl _ => []
    end.
Proof.
  destruct (dispatch_trace ev q s) as (_ & -> & _). f_equal.
  unfold dispatched_calls.
  destruct (process_content (content ev) (attributes ev)); [done|].
  apply handler_calls_paths.
Qed.

Lemma scan_paths_dom (ps : list Path) (ev_path : Path) (g : Guild)
    (c : string) (a : Attrs) paths (events : list (coroutine Exn)) tr :
  dom (scan_paths ps ev_path g c a paths events tr).1.1
  = dom paths ∪ list_to_set ps.
Proof.
  revert paths events tr. induction ps as [|p ps IH]; intros paths events tr.
  - simpl. by rewrite (right_id_L ∅ (∪)).
  - cbn [scan_paths]. pose proof (dom_getitem paths p) as Hd.
    destruct (paths_getitem paths p) as [b paths1]. simpl in Hd.
    destruct (scan_bucket b p ev_path g c a events tr) as [events1 tr1].
    rewrite IH, Hd. simpl.
    by rewrite (comm_L (∪) {[p]} (dom paths)), <- (assoc_L (∪)).
Qed.

Lemma run_task_paths (tid : nat) s s' :
  run_task tid s = Some s' -> paths s' = paths s.
Proof.
  unfold run_task. destruct (tasks s !! tid) as [[n [c| |e]]|]; try done.
  destruct c; by intros [= <-].
Qed.

(** X7: The loop never registers or unregisters: sending, dispatching,
    running handlers and resuming leave every bucket as it is.  They
    remove no key of [self.paths], and a dispatch whose content was
    processed makes the event's path and each of its ancestors a key. *)
Theorem loop_keeps_the_registry (ch : choice) s s' :
  step ch s = Some s' -> (forall rc, ch <> DoCall rc) ->
  (forall p, bucket (paths s') p = bucket (paths s) p) /\
  dom (paths s) ⊆ dom (paths s') /\
  (forall ev q c,
     ch = DoDispatch -> queue s = ev :: q ->
     process_content (content ev) (attributes ev) = inr c ->
     dom (paths s') = dom (paths s) ∪ list_to_set (match_set (event_path ev))).
Proof.
  intros Hstep Hnc. destruct ch as [ev|rc| |tid|]; simpl in Hstep.
  - injection Hstep as <-. simpl. split; [done|]. split; [done|]. done.
  - by destruct (Hnc rc).
  - destruct (loop s); try done. destruct (queue s) as [|ev q] eqn:Hq; [done|].
    injection Hstep as <-.
    destruct (process_content (content ev) (attributes ev)) as [e|c] eqn:Hc.
    + rewrite (dispatch_raised _ _ _ _ Hc). simpl.
      split; [done|]. split; [done|].
      intros ev' q' c' _ [= <- <-]. congruence.
    + assert (Hd : dom (paths (dispatch ev q s))
                   = dom (paths s) ∪ list_to_set (match_set (event_path ev))).
      { unfold dispatch. rewrite Hc.
        pose proof (scan_paths_dom (match_set (event_path ev)) (event_path ev)
                      (guild ev) c (attributes ev) (paths s) (events s)
                      (trace s ++ [QueueGet ev;
                                   CallProcess (content ev) (attributes ev)]))
          as Hdom.
        destruct (scan_paths _ _ _ _ _ _ _ _) as [[paths' events'] tr'].
        exact Hdom. }
      destruct (dispatch_processed ev q s c Hc) as (paths' & Hsame & Heq).
      split; [by rewrite Heq|]. split.
      * rewrite Hd. apply union_subseteq_l.
      * by intros ev' q' c' _ [= <- <-] _.
  - rewrite (run_task_paths tid s s' Hstep). done.
  - unfold resume in Hstep.
    destruct (loop s) as [|[| |e]|]; try done; by injection Hstep as <-.
Qed.

Lemma dead_step (ch : choice) s s' e :
  loop s = Dead e -> step ch s = Some s' ->
  loop s' = Dead e /\ gets (trace s') = gets (trace s) /\
  checked (trace s') = checked (trace s) /\
  handled (trace s') = handled (trace s) /\
  exists sent, queue s' = queue s ++ sent.
Proof.
  intros Hd. destruct ch as [ev|rc| |tid|]; simpl.
  - intros [= <-]. simpl.
    rewrite gets_app, checked_app, handled_app, !app_nil_r. eauto 10.
  - intros [= <-]. simpl. repeat split; try done. exists []. by rewrite app_nil_r.
  - by rewrite Hd.
  - unfold run_task. destruct (tasks s !! tid) as [[n [c| |e0]]|]; try done.
    destruct c; intros [= <-]; simpl; rewrite Hd;
      rewrite gets_app, checked_app, handled_app, !app_nil_r;
      (repeat split; try done); exists []; by rewrite app_nil_r.
  - unfold resume. by rewrite Hd.
Qed.

Lemma dead_run (cs : list choice) s s' e :
  loop s = Dead e -> run cs s = Some s' ->
  loop s' = Dead e /\ gets (trace s') = gets (trace s) /\
  checked (trace s') = checked (trace s) /\
  handled (trace s') = handled (trace s) /\
  exists sent, queue s' = queue s ++ sent.
Proof.
  revert s. induction cs as [|ch cs IH]; intros s Hd; simpl.
  - intros [= <-]. repeat split; try done. exists []. by rewrite app_nil_r.
  - destruct (step ch s) as [s1|] eqn:Hs; [|done]. intros Hrun.
    destruct (dead_step ch s s1 e Hd Hs) as (Hd1 & Hg & Hc & Hh & sent1 & Hq).
    destruct (IH s1 Hd1 Hrun) as (? & Hg' & Hc' & Hh' & sent2 & Hq').
    split; [done|]. split; [congruence|]. split; [congruence|].
    split; [congruence|]. exists (sent1 ++ sent2).
    by rewrite Hq', Hq, (assoc_L (++)).
Qed.

(** X8: an exception of the content processor ends [handle_events] for
    good.  Line 72 stands outside the [try], so when [process_content]
    raises on the event just taken from the queue the loop task ends
    with that exception: the event is gone from the queue, no listener
    was checked or handed it, and under no schedule afterwards is any
    further event taken from the queue or any listener checked or handed
    an event; what is sent later only piles up in the queue. *)
Theorem dead_loop_stays_dead (cs : list choice) s s1 s' ev q e :
  step DoDispatch s = Some s1 -> queue s = ev :: q ->
  process_content (content ev) (attributes ev) = inl e ->
  run cs s1 = Some s' ->
  loop s1 = Dead e /\ loop s' = Dead e /\
  gets (trace s') = gets (trace s) ++ [ev] /\
  checked (trace s') = checked (trace s) /\
  handled (trace s') = handled (trace s) /\
  tasks s1 = tasks s /\
  exists sent, queue s' = q ++ sent.
Proof.
  intros (ev' & q' & Hloop & Hq' & ->)%dispatch_step Hq Hc Hrun.
  rewrite Hq' in Hq. injection Hq as -> ->.
  rewrite (dispatch_raised ev q s e Hc) in *.
  set (s1 := State (paths s) q (events s) (Dead e) (iteration s) (tasks s)
               (trace s ++ [QueueGet ev;
                            CallProcess (content ev) (attributes ev)])) in *.
  assert (Hd : loop s1 = Dead e) by done.
  destruct (dead_run cs s1 s' e Hd Hrun) as (Hl & Hg & Hck & Hh & sent & Hs).
  simpl in *. split; [done|]. split; [done|].
  rewrite Hg, Hck, Hh, gets_app, checked_app, handled_app. simpl.
  rewrite !app_nil_r. split; [done|]. split; [done|]. split; [done|].
  split; [done|]. by exists sent.
Qed.

Lemma log_passes_app tr tr' :
  log_passes (tr ++ tr') = log_passes tr ++ log_passes tr'.
Proof. apply omap_app. Qed.

Lemma log_passes_event_calls paths ev (c : string) :
  log_passes (event_calls paths ev c) = [].
Proof.
  apply omap_none. intros o Ho.
  by apply event_calls_shape in Ho as (l & p & [->| ->]).
Qed.

Lemma log_passes_dispatch ev q s :
  log_passes (trace (dispatch ev q s)) = log_passes (trace s).
Proof.
  destruct (dispatch_trace ev q s) as (-> & _).
  rewrite log_passes_app. simpl. unfold dispatched_calls.
  destruct (process_content (content ev) (attributes ev));
    [|rewrite log_passes_event_calls]; by rewrite app_nil_r.
Qed.

Lemma gets_dispatch ev q s :
  gets (trace (dispatch ev q s)) = gets (trace s) ++ [ev].
Proof.
  destruct (dispatch_trace ev q s) as (-> & _).
  rewrite gets_app. simpl. unfold dispatched_calls.
  destruct (process_content (content ev) (attributes ev));
    [|rewrite gets_event_calls]; done.
Qed.

Lemma loop_dispatch_not_waiting ev q s : loop (dispatch ev q s) <> Waiting.
Proof.
  unfold dispatch.
  destruct (process_content (content ev) (attributes ev)); [done|].
  by destruct (scan_paths _ _ _ _ _ _ _ _) as [[? ?] ?].
Qed.

(** The passes the loop has begun: one more than it has completed
    unless it is back at the queue. *)
Definition begun s : nat :=
  iteration s + match loop s with Waiting => 0 | _ => 1 end.

Lemma done_callback_waiting t (ts : list task) (n : nat) (lp : loop_state) :
  match done_callback t ts n lp with Waiting => 0 | _ => 1 end
  = match lp with Waiting => 0 | _ => 1 end.
Proof.
  destruct lp as [|[| |e]|e]; simpl; try done.
  case_bool_decide; [|done].
  destruct (t_status t); [| |done]; by destruct (children_done n ts).
Qed.

Lemma run_task_trace (tid : nat) s s' :
  run_task tid s = Some s' ->
  trace s' = trace s ++ [TaskStep tid] /\ iteration s' = iteration s /\
  begun s' = begun s /\ length (tasks s') = length (tasks s) /\
  queue s' = queue s /\ events s' = events s.
Proof.
  unfold run_task, begun.
  destruct (tasks s !! tid) as [[n [c| |e]]|]; try done.
  destruct c; intros [= <-]; simpl;
    rewrite ?done_callback_waiting, length_insert; done.
Qed.

Lemma bounded_NoDup_length (ns : list nat) (n : nat) :
  NoDup ns -> (forall x, x ∈ ns -> x < n) -> length ns <= n.
Proof.
  intros Hnd Hlt.
  assert (Hsub : ns ⊆+ seq 0 n).
  { apply NoDup_submseteq; [done|]. intros x Hx. apply elem_of_seq.
    specialize (Hlt x Hx). lia. }
  apply submseteq_length in Hsub. by rewrite length_seq in Hsub.
Qed.

(** X9: However many handlers of one event fail, the loop writes at most
    one error record for it: the records belong to distinct passes that
    are over, every dequeued event begins one pass, so there are never
    more records than dequeued events. *)
Theorem at_most_one_error_per_event s :
  reachable s ->
  NoDup (log_passes (trace s)) /\
  (forall n, n ∈ log_passes (trace s) -> n < iteration s) /\
  length (gets (trace s)) = begun s /\
  length (log_passes (trace s)) <= length (gets (trace s)).
Proof.
  intros Hreach.
  assert (H3 : NoDup (log_passes (trace s)) /\
               (forall n, n ∈ log_passes (trace s) -> n < iteration s) /\
               length (gets (trace s)) = begun s).
  { revert s Hreach. apply reachable_invariant.
    - split; [constructor|]. split; [|done]. by intros n ?%elem_of_nil.
    - intros ch s s' _ (Hnd & Hlt & Hlen) Hstep.
      destruct ch as [ev|rc| |tid|]; simpl in Hstep.
      + injection Hstep as <-. unfold begun. simpl.
        by rewrite log_passes_app, gets_app, !app_nil_r.
      + by injection Hstep as <-.
      + destruct (loop s) eqn:Hloop; try done.
        destruct (queue s) as [|ev q]; [done|]. injection Hstep as <-.
        rewrite log_passes_dispatch, gets_dispatch, length_app.
        destruct (dispatch_trace ev q s) as (_ & _ & _ & Hit).
        split; [done|]. split; [by rewrite Hit|].
        unfold begun in *. rewrite Hit, Hlen, Hloop. simpl.
        pose proof (loop_dispatch_not_waiting ev q s).
        destruct (loop (dispatch ev q s)); [done|lia|lia].
      + destruct (run_task_trace tid s s' Hstep) as (-> & Hit & Hb & _).
        rewrite log_passes_app, gets_app, !app_nil_r, Hit, Hb. done.
      + unfold resume in Hstep. unfold begun in *.
        destruct (loop s) as [|[| |e]|]; try done; injection Hstep as <-;
          simpl in *.
        * split; [done|]. split; [|lia]. intros n Hn.
          specialize (Hlt n Hn). lia.
        * rewrite log_passes_app, gets_app, app_nil_r. simpl.
          split; [|split; [|lia]].
          -- apply NoDup_app. split; [done|]. split; [|apply NoDup_singleton].
             intros n Hn ->%list_elem_of_singleton.
             specialize (Hlt _ Hn). lia.
          -- intros n [Hn| ->%list_elem_of_singleton]%elem_of_app; [|lia].
             specialize (Hlt n Hn). lia. }
  destruct H3 as (Hnd & Hlt & Hlen). split; [done|]. split; [done|].
  split; [done|]. rewrite Hlen.
  pose proof (bounded_NoDup_length _ _ Hnd Hlt). unfold begun. lia.
Qed.

Lemma handler_calls_length calls :
  length (handler_calls calls) = length (handled calls).
Proof.
  induction calls as [|o calls IH]; [done|].
  change (o :: calls) with ([o] ++ calls).
  rewrite handler_calls_app, handled_app, !length_app, IH.
  by destruct o.
Qed.

(** X10: Every call of [handle] the loop makes is run as one task of its
    own: after any execution there are as many tasks as calls, none lost
    and none run twice. *)
Theorem one_task_per_handle_call s :
  reachable s -> length (tasks s) = length (handled (trace s)).
Proof.
  revert s. apply reachable_invariant; [done|].
  intros ch s s' Hinv Hlen Hstep.
  destruct ch as [ev|rc| |tid|]; simpl in Hstep.
  - injection Hstep as <-. simpl. by rewrite handled_app, app_nil_r.
  - by injection Hstep as <-.
  - destruct (loop s) eqn:Hloop; try done.
    destruct (queue s) as [|ev q]; [done|]. injection Hstep as <-.
    rewrite dispatch_tasks. destruct (dispatch_trace ev q s) as (-> & _).
    rewrite (inv_events s Hinv Hloop), handled_app, !length_app, Hlen.
    simpl. f_equal. unfold dispatched_calls.
    destruct (process_content (content ev) (attributes ev)); [done|].
    unfold spawn. by rewrite length_fmap, handler_calls_length.
  - destruct (run_task_trace tid s s' Hstep) as (-> & _ & _ & -> & _).
    by rewrite handled_app, app_nil_r.
  - unfold resume in Hstep.
    destruct (loop s) as [|[| |e]|]; try done; injection Hstep as <-;
      simpl; [done|].
    by rewrite handled_app, app_nil_r.
Qed.

(** X11: A fan-out in which no handler failed is awaited to its end: when
    the [gather] holds a result, every handler of the event has
    finished, and the loop goes back to the queue without writing an
    error record. *)
Theorem clean_fanout_is_awaited s :
  reachable s -> loop s = Awaiting Result ->
  (forall tid t,
     tasks s !! tid = Some t -> t_iteration t = iteration s ->
     t_status t = Finished) /\
  step DoResume s
  = Some (State (paths s) (queue s) [] Waiting (S (iteration s)) (tasks s)
            (trace s)).
Proof.
  intros Hinv%reachable_inv Hloop. split.
  - intros tid [n [c| |e]] Ht Hn; simpl in *; [|done|].
    + destruct (inv_pending s Hinv tid _ Ht eq_refl)
        as [[_ [?|[? ?]]]|[e He]]; [congruence|congruence|].
      destruct (inv_log s Hinv _ _ He) as [Hlt _]. simpl in Hlt. lia.
    + destruct (inv_failed s Hinv tid _ e Ht eq_refl)
        as [[_ [? ?]]|[e' He]]; [congruence|].
      destruct (inv_log s Hinv _ _ He) as [Hlt _]. simpl in Hlt. lia.
  - simpl. unfold resume. by rewrite Hloop.
Qed.

Lemma accepted_nil paths (ps : list Path) (g : Guild) (c : string) (a : Attrs) :
  (forall p l, p ∈ ps -> l ∈ bucket paths p -> check l p g c a = false) ->
  accepted paths ps g c a = [].
Proof.
  intros Hno. unfold accepted. induction ps as [|p ps IH]; [done|].
  rewrite bind_cons, IH.
  - rewrite app_nil_r.
    assert (Hb : forall l, l ∈ bucket paths p -> check l p g c a = false).
    { intros l. apply Hno. left. }
    induction (bucket paths p) as [|x b IHb]; [done|].
    rewrite filter_cons, decide_False.
    + apply IHb. intros l Hl. apply Hb. by right.
    + rewrite (Hb x) by left. done.
  - intros q l Hq. apply Hno. by right.
Qed.

(** X12: An event that no listener accepts is taken from the queue and
    dropped: the dispatch makes no task, the [gather] of nothing is done
    at once, and the loop is back at the queue with no handler called and
    no error record written. *)
Theorem unheard_event_is_dropped s ev q (c : string) :
  reachable s -> loop s = Waiting -> queue s = ev :: q ->
  process_content (content ev) (attributes ev) = inr c ->
  (forall p l,
     p ∈ match_set (event_path ev) -> l ∈ bucket (paths s) p ->
     check l p (guild ev) c (attributes ev) = false) ->
  exists s',
    run [DoDispatch; DoResume] s = Some s' /\
    loop s' = Waiting /\ queue s' = q /\ tasks s' = tasks s /\
    iteration s' = S (iteration s) /\
    gets (trace s') = gets (trace s) ++ [ev] /\
    handled (trace s') = handled (trace s) /\
    log_passes (trace s') = log_passes (trace s).
Proof.
  intros Hinv%reachable_inv Hloop Hq Hc Hno.
  pose proof (dispatch_events ev q s) as Hev.
  rewrite Hc, (accepted_nil _ _ _ _ _ Hno), (inv_events s Hinv Hloop) in Hev.
  simpl in Hev.
  pose proof (gets_dispatch ev q s) as Hg.
  pose proof (log_passes_dispatch ev q s) as Hl.
  assert (Hh : handled (trace (dispatch ev q s)) = handled (trace s)).
  { destruct (dispatch_trace ev q s) as (-> & Hevs & _).
    rewrite handled_app. simpl.
    rewrite (inv_events s Hinv Hloop), Hev in Hevs. simpl in Hevs.
    pose proof (handler_calls_length (dispatched_calls s ev)) as Hlen.
    rewrite <- Hevs in Hlen. simpl in Hlen.
    destruct (handled (dispatched_calls s ev)); [by rewrite app_nil_r|done]. }
  destruct (dispatch_processed ev q s c Hc) as (paths' & _ & Hd).
  rewrite (inv_events s Hinv Hloop) in Hd. simpl in Hd.
  assert (Hnil : handler_calls (event_calls (paths s) ev c) = []).
  { pose proof (f_equal events Hd) as He. rewrite Hev in He. done. }
  rewrite Hnil in Hd. simpl in Hd. rewrite app_nil_r in Hd.
  simpl. rewrite Hloop, Hq. unfold resume. rewrite Hd in *. simpl in *.
  eexists. split; [done|]. simpl. done.
Qed.

(** The segments a coroutine still has to run, and those of all the
    tasks together. *)
Fixpoint segments (c : coroutine Exn) : nat :=
  match c with
  | Await k => S (segments k)
  | _ => 1
  end.

Definition work (t : task) : nat :=
  match t_status t with Pending c => segments c | _ => 0 end.

Fixpoint backlog (ts : list task) : nat :=
  match ts with
  | [] => 0
  | t :: ts' => work t + backlog ts'
  end.

Lemma backlog_insert (ts : list task) (tid : nat) t t' :
  ts !! tid = Some t ->
  backlog (<[tid := t']> ts) + work t = backlog ts + work t'.
Proof.
  revert tid. induction ts as [|x ts IH]; intros [|tid]; simpl; try done.
  - intros [= ->]. lia.
  - intros Ht. specialize (IH tid Ht). lia.
Qed.

Lemma backlog_zero (ts : list task) (tid : nat) t :
  backlog ts = 0 -> ts !! tid = Some t -> pending t = false.
Proof.
  revert tid. induction ts as [|x ts IH]; intros [|tid]; simpl; try done.
  - intros Hz [= ->]. unfold work, pending in *.
    destruct (t_status t) as [c| |]; try done. destruct c; simpl in Hz; lia.
  - intros Hz. apply IH. lia.
Qed.

Lemma backlog_pending (ts : list task) :
  backlog ts <> 0 ->
  exists tid t, ts !! tid = Some t /\ pending t = true.
Proof.
  induction ts as [|x ts IH]; simpl; [done|]. intros Hnz.
  destruct (pending x) eqn:Hp; [by exists 0, x|].
  destruct IH as (tid & t & Ht & Hpt).
  - unfold work, pending in *. destruct (t_status x); [done|lia|lia].
  - by exists (S tid), t.
Qed.

Lemma run_task_backlog (tid : nat) s t :
  tasks s !! tid = Some t -> pending t = true ->
  exists s',
    run_task tid s = Some s' /\ S (backlog (tasks s')) = backlog (tasks s) /\
    (forall e, loop s' = Dead e -> loop s = Dead e).
Proof.
  intros Ht Hp. unfold run_task. rewrite Ht.
  destruct t as [n [c| |e]]; try done.
  destruct c as [|e|k]; eexists; (split; [done|]); simpl.
  - split.
    + pose proof (backlog_insert (tasks s) tid _ (Task n Finished) Ht) as Hb.
      unfold work in Hb. simpl in Hb. lia.
    + intros e0. destruct (loop s) as [|[| |e1]|e1]; simpl; try done.
      case_bool_decide; [|done]. by destruct (children_done _ _).
  - split.
    + pose proof (backlog_insert (tasks s) tid _ (Task n (Failed e)) Ht) as Hb.
      unfold work in Hb. simpl in Hb. lia.
    + intros e0. destruct (loop s) as [|[| |e1]|e1]; simpl; try done.
      by case_bool_decide.
  - split; [|done].
    pose proof (backlog_insert (tasks s) tid _ (Task n (Pending k)) Ht) as Hb.
    unfold work in Hb. simpl in Hb. lia.
Qed.

Lemma run_app (cs1 cs2 : list choice) s s1 s2 :
  run cs1 s = Some s1 -> run cs2 s1 = Some s2 -> run (cs1 ++ cs2) s = Some s2.
Proof.
  revert s. induction cs1 as [|ch cs1 IH]; intros s; simpl.
  - by intros [= ->].
  - destruct (step ch s); [|done]. apply IH.
Qed.

(** A schedule in which nothing is sent and no registry call is made. *)
Definition loop_only (cs : list choice) : Prop :=
  Forall (fun ch => ch = DoDispatch \/ ch = DoResume \/ exists tid, ch = DoRun tid)
    cs.

Lemma drain_tasks (n : nat) s :
  backlog (tasks s) <= n ->
  exists cs s',
    run cs s = Some s' /\ loop_only cs /\ backlog (tasks s') = 0 /\
    queue s' = queue s /\ gets (trace s') = gets (trace s) /\
    puts (trace s') = puts (trace s) /\ begun s' = begun s /\
    (forall e, loop s' = Dead e -> loop s = Dead e).
Proof.
  revert s. induction n as [|n IH]; intros s Hn.
  - exists [], s. split; [done|]. split; [constructor|].
    split; [lia|]. done.
  - destruct (decide (backlog (tasks s) = 0)) as [Hz|Hnz].
    { exists [], s. split; [done|]. split; [constructor|]. done. }
    destruct (backlog_pending _ Hnz) as (tid & t & Ht & Hp).
    destruct (run_task_backlog tid s t Ht Hp) as (s1 & Hrun & Hb & Hdead).
    destruct (run_task_trace tid s s1 Hrun) as (Htr & _ & Hbeg & _ & Hq & _).
    destruct (IH s1) as (cs & s' & Hcs & Hlo & Hz & Hq' & Hg & Hpu & Hbeg' & Hd');
      [lia|].
    exists (DoRun tid :: cs), s'. simpl. rewrite Hrun.
    split; [done|]. split; [constructor; eauto|]. split; [done|].
    split; [congruence|].
    rewrite Hg, Hpu, Htr, gets_app, puts_app, !app_nil_r.
    split; [done|]. split; [done|]. split; [congruence|]. eauto.
Qed.

Lemma settle s :
  inv s -> (forall e, loop s <> Dead e) ->
  exists cs s',
    run cs s = Some s' /\ loop_only cs /\ loop s' = Waiting /\
    backlog (tasks s') = 0 /\ queue s' = queue s /\
    gets (trace s') = gets (trace s) /\ puts (trace s') = puts (trace s).
Proof.
  intros Hinv Halive.
  destruct (drain_tasks (backlog (tasks s)) s (Nat.le_refl _))
    as (cs & s1 & Hcs & Hlo & Hz & Hq & Hg & Hp & _ & Hd).
  pose proof (inv_run cs s s1 Hinv Hcs) as Hinv1.
  destruct (loop s1) as [|[| |e]|e] eqn:Hloop.
  - exists cs, s1. rewrite Hloop. done.
  - destruct (inv_unresolved s1 Hinv1 Hloop) as (tid & t & Ht & _ & Hpt).
    by rewrite (backlog_zero _ _ _ Hz Ht) in Hpt.
  - eexists (cs ++ [DoResume]), _. split.
    + apply (run_app cs [DoResume] s s1); [done|]. simpl. unfold resume.
      by rewrite Hloop.
    + simpl. split; [|done]. apply Forall_app. split; [done|].
      constructor; [|constructor]. right. by left.
  - eexists (cs ++ [DoResume]), _. split.
    + apply (run_app cs [DoResume] s s1); [done|]. simpl. unfold resume.
      by rewrite Hloop.
    + simpl. split.
      * apply Forall_app. split; [done|].
        constructor; [|constructor]. right. by left.
      * rewrite gets_app, puts_app, !app_nil_r. done.
  - by destruct (Halive e); apply Hd.
Qed.

Lemma process_the_queue q s :
  inv s -> loop s = Waiting -> queue s = q ->
  Forall (fun ev => exists c,
            process_content (content ev) (attributes ev) = inr c) q ->
  exists cs s',
    run cs s = Some s' /\ loop_only cs /\ loop s' = Waiting /\
    backlog (tasks s') = 0 /\ queue s' = [] /\
    gets (trace s') = gets (trace s) ++ q /\ puts (trace s') = puts (trace s).
Proof.
  revert s. induction q as [|ev q IH]; intros s Hinv Hloop Hq Hok.
  - destruct (settle s Hinv) as (cs & s' & Hcs & Hlo & Hl & Hz & Hq' & Hg & Hp).
    { intros e. by rewrite Hloop. }
    exists cs, s'. rewrite app_nil_r. split; [done|]. split; [done|].
    split; [done|]. split; [done|]. split; [congruence|]. done.
  - apply Forall_cons in Hok as [[c Hc] Hok].
    pose proof (inv_dispatch ev q s Hinv Hloop Hq) as Hinv1.
    destruct (dispatch_processed ev q s c Hc) as (paths' & _ & Hd).
    destruct (settle (dispatch ev q s) Hinv1)
      as (cs1 & s1 & Hcs1 & Hlo1 & Hl1 & _ & Hq1 & Hg1 & Hp1).
    { intros e. by rewrite Hd. }
    pose proof (inv_run cs1 _ s1 Hinv1 Hcs1) as Hinv2.
    destruct (dispatch_trace ev q s) as (Htr & _ & Hqd & _).
    destruct (IH s1 Hinv2 Hl1) as (cs2 & s2 & Hcs2 & Hlo2 & Hl2 & Hz2 & Hq2 & Hg2 & Hp2);
      [congruence|done|].
    exists (DoDispatch :: cs1 ++ cs2), s2. split.
    { simpl. rewrite Hloop, Hq. by apply (run_app cs1 cs2 _ s1). }
    split.
    { constructor; [by left|]. by apply Forall_app. }
    split; [done|]. split; [done|]. split; [done|].
    rewrite Hg2, Hg1, Hp2, Hp1, gets_dispatch, Htr, puts_app.
    split; [by rewrite <- (assoc_L (++))|].
    simpl. unfold dispatched_calls. rewrite Hc.
    by rewrite puts_event_calls, app_nil_r.
Qed.

(** X13: With handlers that come to an end (a coroutine of the model has
    finitely many segments) and a content processor that accepts what is
    queued, the loop gets through its queue: from any state it has
    reached alive there is a schedule of handler steps and loop steps
    alone after which every event ever sent has been dispatched, in the
    order sent, the queue is empty, no handler is left running and the
    loop waits for the next event. *)
Theorem queue_is_eventually_processed s :
  reachable s -> (forall e, loop s <> Dead e) ->
  Forall (fun ev => exists c,
            process_content (content ev) (attributes ev) = inr c) (queue s) ->
  exists cs s',
    run cs s = Some s' /\ loop_only cs /\ loop s' = Waiting /\ queue s' = [] /\
    gets (trace s') = puts (trace s) /\ puts (trace s') = puts (trace s) /\
    (forall tid t, tasks s' !! tid = Some t -> pending t = false).
Proof.
  intros Hinv%reachable_inv Halive Hok.
  destruct (settle s Hinv Halive)
    as (cs1 & s1 & Hcs1 & Hlo1 & Hl1 & _ & Hq1 & Hg1 & Hp1).
  pose proof (inv_run cs1 s s1 Hinv Hcs1) as Hinv1.
  destruct (process_the_queue (queue s) s1 Hinv1 Hl1 Hq1 Hok)
    as (cs2 & s2 & Hcs2 & Hlo2 & Hl2 & Hz2 & Hq2 & Hg2 & Hp2).
  exists (cs1 ++ cs2), s2. split; [by apply (run_app cs1 cs2 s s1)|].
  split; [by apply Forall_app|]. split; [done|]. split; [done|].
  split; [by rewrite Hg2, Hg1, (inv_fifo s Hinv)|]. split; [congruence|].
  intros tid t. by apply backlog_zero.
Qed.

(** The calls of the content processor in a trace, with their
    arguments. *)
Definition processed (tr : list obs) : list (string * Attrs) :=
  omap (fun o => match o with CallProcess c a => Some (c, a) | _ => None end)
    tr.

Lemma processed_app tr tr' : processed (tr ++ tr') = processed tr ++ processed tr'.
Proof. apply omap_app. Qed.

Lemma processed_event_calls paths ev (c : string) :
  processed (event_calls paths ev c) = [].
Proof.
  apply omap_none. intros o Ho.
  by apply event_calls_shape in Ho as (l & p & [->| ->]).
Qed.

(** X14: Over a whole execution the content processor is called once for
    each event taken from the queue, in the order the events are taken,
    on that event's content and attributes, and never otherwise. *)
Theorem processor_called_once_per_dequeued_event s :
  reachable s ->
  processed (trace s)
  = (fun ev => (content ev, attributes ev)) <$> gets (trace s).
Proof.
  revert s. apply reachable_invariant; [done|].
  intros ch s s' _ IH Hstep.
  destruct ch as [ev|rc| |tid|]; simpl in Hstep.
  - injection Hstep as <-. simpl.
    by rewrite processed_app, gets_app, !app_nil_r.
  - by injection Hstep as <-.
  - destruct (loop s); try done.
    destruct (queue s) as [|ev q]; [done|]. injection Hstep as <-.
    rewrite gets_dispatch, fmap_app, <- IH.
    destruct (dispatch_trace ev q s) as (-> & _).
    rewrite processed_app. simpl. do 2 f_equal. unfold dispatched_calls.
    destruct (process_content (content ev) (attributes ev)); [done|].
    apply processed_event_calls.
  - destruct (run_task_trace tid s s' Hstep) as (-> & _).
    by rewrite processed_app, gets_app, !app_nil_r.
  - unfold resume in Hstep.
    destruct (loop s) as [|[| |e]|]; try done; injection Hstep as <-;
      simpl; [done|].
    by rewrite processed_app, gets_app, !app_nil_r.
Qed.

End loop_behaviour.

(** ** The settings commands *)

Section settings_facts.
Import Settings.
Context {Guild Ctx Store Role : Type} `{!Discord Guild Ctx Store Role}.

Local Abbreviation effect := (@Settings.effect Guild Role).

Lemma sub_trailing_underscore_length (s : string) :
  String.length (sub_trailing_underscore s) = String.length s.
Proof.
  induction s as [|a s IH]; [done|]. simpl.
  destruct (Ascii.eqb a underscore && _); simpl; by rewrite ?IH.
Qed.

Lemma append_not_empty (p : string) (a : Ascii.ascii) (r : string) :
  String.eqb (p +:+ String a r) EmptyString = false.
Proof. by destruct p. Qed.

Lemma append_underscore_not_newline (p : string) (r : string) :
  String.eqb (p +:+ String underscore r) (String newline EmptyString) = false.
Proof.
  destruct p as [|b p]; [done|]. simpl.
  rewrite append_not_empty. by destruct (Ascii.eqb b newline).
Qed.

Lemma sub_trailing_underscore_end (p : string) :
  sub_trailing_underscore (p +:+ String underscore EmptyString)
  = p +:+ String space EmptyString.
Proof.
  induction p as [|a p IH]; [done|]. simpl.
  by rewrite IH, append_not_empty, append_underscore_not_newline,
    andb_false_r.
Qed.

Lemma sub_trailing_underscore_newline (p : string) :
  sub_trailing_underscore
    (p +:+ String underscore (String newline EmptyString))
  = p +:+ String space (String newline EmptyString).
Proof.
  induction p as [|a p IH]; [done|]. simpl.
  by rewrite IH, append_not_empty, append_underscore_not_newline,
    andb_false_r.
Qed.

(** A string ends with an underscore, or with an underscore and the
    final newline. *)
Definition ends_with_underscore (s : string) : Prop :=
  exists p, s = p +:+ String underscore EmptyString \/
            s = p +:+ String underscore (String newline EmptyString).

Lemma sub_trailing_underscore_other (s : string) :
  ~ ends_with_underscore s -> sub_trailing_underscore s = s.
Proof.
  induction s as [|a s IH]; [done|]. intros Hno. simpl.
  destruct (Ascii.eqb a underscore
            && (String.eqb s EmptyString
                || String.eqb s (String newline EmptyString))) eqn:Hc.
  - destruct Hno. apply andb_true_iff in Hc as [Ha Hs].
    apply Ascii.eqb_eq in Ha. subst a. exists EmptyString.
    apply orb_true_iff in Hs as [Hs|Hs]; apply String.eqb_eq in Hs; subst s;
      [by left|by right].
  - f_equal. apply IH. intros (p & [Hp|Hp]); apply Hno;
      exists (String a p); subst s; [by left|by right].
Qed.

(** X17: What [re.sub(r'_$', ' ', prefix)] does to a prefix: an underscore
    that ends it, or that stands before its final newline, becomes a
    space; any other prefix is left as it is; the length never changes. *)
Theorem trailing_underscore_becomes_space (s : string) :
  (forall p, s = p +:+ String underscore EmptyString ->
             sub_trailing_underscore s = p +:+ String space EmptyString) /\
  (forall p, s = p +:+ String underscore (String newline EmptyString) ->
             sub_trailing_underscore s
             = p +:+ String space (String newline EmptyString)) /\
  (~ ends_with_underscore s -> sub_trailing_underscore s = s) /\
  String.length (sub_trailing_underscore s) = String.length s.
Proof.
  split; [|split; [|split]].
  - intros p ->. apply sub_trailing_underscore_end.
  - intros p ->. apply sub_trailing_underscore_newline.
  - apply sub_trailing_underscore_other.
  - apply sub_trailing_underscore_length.
Qed.

Lemma string_eqb_false (a b : string) : String.eqb a b = false -> a <> b.
Proof. intros Hf ->. by rewrite String.eqb_refl in Hf. Qed.

(** X18: Who may change the prefix, and what is told to the journal.  The
    prefix is written only in a guild, and only in two cases: the
    argument is ["_"], which unsets it for any author, moderator or not,
    or the author has [mod_perm], which stores the argument with its
    trailing underscore turned into a space.  Every write is followed by
    one [journal.send] on ["prefix"] that carries the value written;
    without a write the store is untouched and nothing is sent.  Each
    invocation ends with exactly one reply. *)
Theorem prefix_writes_are_authorised_and_journaled (ctx : Ctx)
    (prefix : option string) (st : Store) :
  let st' := (prefix_command ctx prefix st).1 in
  let effects := (prefix_command ctx prefix st).2 in
  (forall g v,
     SqlSetPrefix g v ∈ effects ->
     ctx_guild ctx = Some g /\ st' = set_prefix g v st /\
     (exists content,
        filter (fun e => is_write e = true \/ is_journal e = true) effects
        = [SqlSetPrefix g v;
           JournalSend "prefix" g content
             [("icon", VStr "settings"); ("prefix", of_prefix v);
              ("default_prefix", VStr default_prefix)]]) /\
     ((v = None /\ prefix = Some "_") \/
      (mod_perm ctx = true /\
       exists p, prefix = Some p /\ p <> "_" /\
                 v = Some (sub_trailing_underscore p)))) /\
  ((forall g v, SqlSetPrefix g v ∉ effects) ->
   st' = st /\
   filter (fun e => is_write e = true \/ is_journal e = true) effects = []) /\
  (forall g, ctx_guild ctx = Some g -> prefix = Some "_" ->
             SqlSetPrefix g None ∈ effects) /\
  (forall g p, ctx_guild ctx = Some g -> prefix = Some p -> p <> "_" ->
               mod_perm ctx = false ->
               st' = st /\ exists d, effects = [Reply dark_red d DENY]) /\
  (exists pre c d r,
     effects = pre ++ [Reply c d r] /\ Forall (fun e => is_reply e = false) pre).
Proof.
  unfold prefix_command.
  destruct prefix as [p|]; [|simpl].
  2:{ split; [by intros g v [=]%list_elem_of_singleton|].
      split; [done|]. split; [done|]. split; [done|].
      eexists [], _, _, _. split; [done|]. constructor. }
  destruct (ctx_guild ctx) as [g0|] eqn:Hg; [|simpl].
  2:{ split; [by intros g v [=]%list_elem_of_singleton|].
      split; [done|]. split; [done|]. split; [done|].
      eexists [], _, _, _. split; [done|]. constructor. }
  destruct (String.eqb p "_") eqn:Hp.
  - apply String.eqb_eq in Hp. subst p. simpl. split.
    { intros g v Hin. apply elem_of_cons in Hin as [Hin|Hin].
      - injection Hin as -> ->. split; [done|]. split; [done|].
        split; [by eexists|]. by left.
      - apply elem_of_cons in Hin as [Hin|Hin]; [done|].
        by apply list_elem_of_singleton in Hin. }
    split. { intros Hno. destruct (Hno g0 None). left. }
    split. { intros g [= <-] _. left. }
    split. { by intros g p _ [= <-] Hne. }
    eexists [_; _], _, _, _. split; [done|]. by repeat constructor.
  - apply string_eqb_false in Hp.
    destruct (mod_perm ctx) eqn:Hm; simpl.
    + split.
      { intros g v Hin. apply elem_of_cons in Hin as [Hin|Hin].
        - injection Hin as -> ->. split; [done|]. split; [done|].
          split; [by eexists|]. right. split; [done|]. by exists p.
        - apply elem_of_cons in Hin as [Hin|Hin]; [done|].
          by apply list_elem_of_singleton in Hin. }
      split. { intros Hno. destruct (Hno g0 (Some (sub_trailing_underscore p))). left. }
      split. { intros g _ [= ->]. done. }
      split. { done. }
      eexists [_; _], _, _, _. split; [done|]. by repeat constructor.
    + split; [by intros g v [=]%list_elem_of_singleton|].
      split; [done|]. split. { intros g _ [= ->]. done. }
      split. { intros g p' _ _ _ _. split; [done|]. by eexists. }
      eexists [], _, _, _. split; [done|]. constructor.
Qed.





End settings_facts.

Section settings_demo_facts.
Import Settings SettingsDemo.

Example prefix_by_anyone :
  prefix_command (true, false) (Some "_") (Store (Some "?") [])
  = (Store None [],
     [SqlSetPrefix tt None;
      JournalSend "prefix" tt "Unset bot command prefix"
        [("icon", VStr "settings"); ("prefix", VNone);
         ("default_prefix", VStr "!")];
      Reply dark_teal "Unset prefix for Programming. (Default prefix: `!`)"
        SUCCESS]) /\
  prefix_command (true, false) (Some "f_") fresh
  = (fresh, [Reply dark_red "You do not have permission to set the prefix"
               DENY]) /\
  (prefix_command (true, true) (Some "f_") fresh).1 = Store (Some "f ") [] /\
  (prefix_command (false, true) (Some "f_") fresh).1 = fresh.
Proof. vm_compute. done. Qed.

Example set_member_then_mute :
  (set_member_role tt (Some "mods") fresh).1 = Store None [(member, 5)] /\
  set_mute_role tt (Some "mods") (Store None [(member, 5)])
  = (Store None [(member, 5)],
     [Reply dark_red "Cannot assign the same role for multiple purposes"
        FAIL]) /\
  (set_mute_role tt (Some "everyone") fresh).2
  = [Reply dark_red "@everyone role cannot be assigned for this purpose"
       FAIL] /\
  (set_mute_role tt (Some "nobody") fresh).2
  = [Reply dark_red "No role with description `nobody` found" FAIL] /\
  (set_member_role tt None (Store None [(member, 5)])).2
  = [SqlSetSpecialRole tt member None;
     Reply green "Unset member role" SUCCESS;
     JournalSend "roles/member" tt "Unset the member role"
       [("icon", VStr "settings"); ("role", VNone)]].
Proof. vm_compute. done. Qed.

End settings_demo_facts.

(** ** More on the hooks *)

Section hooks_composition.
Import Hooks.
Context {Hook Args World Exn : Type} `{!Callable Hook Args World Exn}.

(** X15: [run_hooks] on a name that is no hook name raises [KeyError],
    whatever was registered before, and calls no hook: the registry has
    no such key, since [register_hook] refuses the name. *)
Theorem run_hooks_unknown_name (cs : list (string * Hook)) (name : string)
    (args : Args) (w : World) :
  name ∉ HOOK_NAMES ->
  run_hooks name args (register_all cs _hooks) w = inl (KeyError name).
Proof.
  intros Hnot. unfold run_hooks.
  by rewrite register_all_lookup, decide_False, initial_hooks_lookup,
    decide_False by done.
Qed.

(** X16: Registering a hook under one name changes nothing for the other
    names: [run_hooks] on them calls the same hooks with the same
    outcome as before. *)
Theorem register_hook_leaves_other_names (n m : string) (hook : Hook)
    (hooks : gmap string (list Hook)) (args : Args) (w : World) :
  n <> m ->
  run_hooks n args (register_hook m hook hooks).2 w = run_hooks n args hooks w.
Proof.
  intros Hne. unfold run_hooks. rewrite register_hook_lookup.
  rewrite decide_False; [done|]. intros [_ ->]. done.
Qed.

End hooks_composition.

(** ** The further properties at work *)

Section more_demo_facts.
Import PurePath Router Demo Scenarios.

Lemma get_returns_registered_witness :
  let cs := [CallRegister audit; CallRegister slow; CallUnregister audit;
             CallRegister flaky] in
  (get (apply_calls cs ∅) a_b_c [("channel", "general")]).1 = Some slow /\
  CallRegister slow ∈ cs /\ listener_path slow = a_b_c /\
  matches slow [("channel", "general")].
Proof.
  intros cs.
  assert (Hget : (get (apply_calls cs ∅) a_b_c [("channel", "general")]).1
                 = Some slow) by (vm_compute; reflexivity).
  split; [exact Hget|].
  exact (get_returns_registered_listener cs a_b_c [("channel", "general")]
           slow Hget).
Defined.

Lemma get_ignores_order_witness :
  get registered a_b_c [("channel", "general"); ("kind", "dm")]
  = get registered a_b_c
      [("kind", "dm"); ("channel", "general"); ("kind", "dm")].
Proof.
  apply get_ignores_attribute_order. intros x.
  rewrite !elem_of_cons, elem_of_nil. tauto.
Defined.

Lemma loop_keeps_registry_witness :
  step DoDispatch registered_twice = Some (dispatch e1 [] registered_twice) /\
  (forall p, bucket (paths (dispatch e1 [] registered_twice)) p
             = bucket (paths registered_twice) p) /\
  dom (paths (dispatch e1 [] registered_twice))
  = dom (paths registered_twice) ∪ list_to_set (match_set a_b_c).
Proof.
  assert (Hstep : step DoDispatch registered_twice
                  = Some (dispatch e1 [] registered_twice))
    by (vm_compute; reflexivity).
  split; [exact Hstep|].
  destruct (loop_keeps_the_registry DoDispatch registered_twice
              (dispatch e1 [] registered_twice) Hstep)
    as (Hb & _ & Hd); [discriminate|].
  split; [exact Hb|].
  apply (Hd e1 [] "<first>"); vm_compute; reflexivity.
Defined.

Lemma dead_loop_witness :
  step DoDispatch (default start (run (take 2 fatal) start)) = Some died /\
  process_content (content e_empty) (attributes e_empty) = inl "empty" /\
  exists s',
    run [DoSend e1; DoCall (CallRegister slow); DoSend e2] died = Some s' /\
    loop s' = Dead "empty" /\ gets (trace s') = [e_empty] /\
    handled (trace s') = [] /\ queue s' = [e1; e2].
Proof.
  assert (Hstep : step DoDispatch (default start (run (take 2 fatal) start))
                  = Some died) by (vm_compute; reflexivity).
  split; [exact Hstep|]. split; [reflexivity|].
  eexists. split; [vm_compute; reflexivity|].
  destruct (dead_loop_stays_dead
              [DoSend e1; DoCall (CallRegister slow); DoSend e2]
              (default start (run (take 2 fatal) start)) died _ e_empty []
              "empty" Hstep eq_refl eq_refl eq_refl)
    as (_ & Hl & Hg & _ & Hh & _).
  split; [exact Hl|]. split; [exact Hg|]. split; [exact Hh|]. reflexivity.
Defined.

Lemma failed_twice_reachable : reachable failed_twice.
Proof. exists two_failures. vm_compute. reflexivity. Qed.

Lemma one_error_witness :
  reachable failed_twice /\
  tasks failed_twice = [Task 0 (Failed "boom"); Task 0 (Failed "boom")] /\
  log_passes (trace failed_twice) = [0] /\
  length (log_passes (trace failed_twice))
  <= length (gets (trace failed_twice)).
Proof.
  split; [exact failed_twice_reachable|].
  split; [vm_compute; reflexivity|]. split; [vm_compute; reflexivity|].
  exact (proj2 (proj2 (proj2
           (at_most_one_error_per_event failed_twice failed_twice_reachable)))).
Defined.

Lemma one_task_witness :
  reachable failed_twice /\
  length (tasks failed_twice) = length (handled (trace failed_twice)).
Proof.
  split; [exact failed_twice_reachable|].
  exact (one_task_per_handle_call failed_twice failed_twice_reachable).
Defined.

Lemma gathered_reachable : reachable gathered.
Proof. exists quiet_success. vm_compute. reflexivity. Qed.

Lemma clean_fanout_witness :
  reachable gathered /\ loop gathered = Awaiting Result /\
  forall tid t,
    tasks gathered !! tid = Some t -> t_iteration t = iteration gathered ->
    t_status t = Finished.
Proof.
  assert (Hl : loop gathered = Awaiting Result) by (vm_compute; reflexivity).
  split; [exact gathered_reachable|]. split; [exact Hl|].
  exact (proj1 (clean_fanout_is_awaited gathered gathered_reachable Hl)).
Defined.

Lemma before_unheard_reachable : reachable before_unheard.
Proof. exists unheard. vm_compute. reflexivity. Qed.

Lemma unheard_event_witness :
  reachable before_unheard /\ queue before_unheard = [e1] /\
  exists s',
    run [DoDispatch; DoResume] before_unheard = Some s' /\
    loop s' = Waiting /\ queue s' = [] /\ tasks s' = tasks before_unheard.
Proof.
  split; [exact before_unheard_reachable|]. split; [vm_compute; reflexivity|].
  destruct (unheard_event_is_dropped before_unheard e1 [] "<first>"
              before_unheard_reachable)
    as (s' & Hrun & Hl & Hq & Ht & _);
    [vm_compute; reflexivity|vm_compute; reflexivity|vm_compute; reflexivity| |].
  - intros p l Hp Hl. vm_compute in Hp.
    repeat (apply elem_of_cons in Hp as [Hp|Hp];
            [subst p; vm_compute in Hl|]).
    + apply list_elem_of_singleton in Hl. by subst l.
    + by apply elem_of_nil in Hl.
    + by apply elem_of_nil in Hl.
    + by apply elem_of_nil in Hl.
    + by apply elem_of_nil in Hp.
  - exists s'. done.
Defined.

Lemma queue_processed_witness :
  reachable overtaken /\ queue overtaken = [e2] /\
  exists cs s',
    run cs overtaken = Some s' /\ loop_only cs /\ loop s' = Waiting /\
    queue s' = [] /\ gets (trace s') = [e1; e2].
Proof.
  split; [exact overtaken_reachable|]. split; [vm_compute; reflexivity|].
  destruct (queue_is_eventually_processed overtaken overtaken_reachable)
    as (cs & s' & Hrun & Hlo & Hl & Hq & Hg & _).
  - intros e He. vm_compute in He. discriminate He.
  - vm_compute. constructor; [|constructor]. by eexists.
  - exists cs, s'. split; [exact Hrun|]. split; [exact Hlo|].
    split; [exact Hl|]. split; [exact Hq|]. exact Hg.
Defined.

Lemma run_hooks_unknown_witness :
  ("on_guild_ban" ∉ Hooks.HOOK_NAMES) /\
  Hooks.run_hooks "on_guild_ban" tt
    (Hooks.register_all hook_calls Hooks._hooks) 0
  = inl (Hooks.KeyError "on_guild_ban").
Proof.
  assert (Hnot : "on_guild_ban" ∉ Hooks.HOOK_NAMES).
  { unfold Hooks.HOOK_NAMES. rewrite !not_elem_of_cons.
    split; [discriminate|]. split; [discriminate|]. apply not_elem_of_nil. }
  split; [exact Hnot|].
  exact (run_hooks_unknown_name hook_calls "on_guild_ban" tt 0 Hnot).
Defined.

Lemma other_names_witness :
  "on_guild_join" <> "on_guild_leave" /\
  Hooks.run_hooks "on_guild_join" tt
    (Hooks.register_hook "on_guild_leave" broken
       (Hooks.register_all hook_calls Hooks._hooks)).2 0
  = Hooks.run_hooks "on_guild_join" tt
      (Hooks.register_all hook_calls Hooks._hooks) 0.
Proof.
  assert (Hne : "on_guild_join" <> "on_guild_leave") by discriminate.
  split; [exact Hne|].
  exact (register_hook_leaves_other_names "on_guild_join" "on_guild_leave"
           broken _ tt 0 Hne).
Defined.

Lemma processor_calls_witness :
  reachable failed_twice /\
  processed (trace failed_twice)
  = (fun ev => (content ev, attributes ev)) <$> gets (trace failed_twice).
Proof.
  split; [exact failed_twice_reachable|].
  exact (processor_called_once_per_dequeued_event failed_twice
           failed_twice_reachable).
Defined.

End more_demo_facts.
